(** * ExpiryVision: the label ingestion pipeline (label_watchdog_00.py)

    A shallow embedding of the watcher's retry ledger, lock manager,
    stability prober and controller, and the properties of the
    specification stated on it.

    Conventions of the embedding.
    - A Python [str] is a Rocq [string]; a character is a code point
      below 256, so the only decimal digits are '0'..'9'.
    - A [pathlib] path is a record of its directory components and its
      final component [name]; [stem] and [suffix] follow pathlib's rule
      [0 < i < len(name) - 1] on the last dot (Python 3.4 to 3.13).
    - The file system is a finite map from file paths to file contents
      (folders are implicit); the console is the list of the messages
      printed.  Exceptions are values of [exn], and a computation that
      changes the world and may raise is a function of type [M].
    - What lies outside the watcher is an input: the sizes the reads of
      a file give, one after the other, and the outcome of running the
      extraction script.  [time.sleep] is left out. *)

From Stdlib Require Import ZArith Ascii String Lia Bool.
From stdpp Require Import gmap strings list fin_maps.

Local Open Scope Z_scope.

(* ================================================================== *)
(** ** Python string primitives                                        *)
(* ================================================================== *)

(** [s.startswith(p)]. *)
Fixpoint startswith (p s : string) : bool :=
  match p with
  | EmptyString => true
  | String a p' =>
      match s with
      | EmptyString => false
      | String b s' => Ascii.eqb a b && startswith p' s'
      end
  end.

(** [sep in s] (substring test). *)
Fixpoint contains (sep s : string) : bool :=
  startswith sep s ||
  match s with
  | EmptyString => false
  | String _ s' => contains sep s'
  end.

(** Reversal of the characters collected so far. *)
Fixpoint rev_onto (s acc : string) : string :=
  match s with
  | EmptyString => acc
  | String c s' => rev_onto s' (String c acc)
  end.

(** [s.split(sep)] for a non-empty [sep]: a left-to-right scan that cuts
    at every occurrence of [sep] and resumes after it.  [skip] counts
    the characters of a matched separator still to be passed over and
    [cur] holds the current piece, last character first. *)
Fixpoint split_go (sep : string) (skip : nat) (cur : string) (s : string)
  : list string :=
  match s with
  | EmptyString => [rev_onto cur EmptyString]
  | String c s' =>
      match skip with
      | S k => split_go sep k cur s'
      | O =>
          if startswith sep s
          then rev_onto cur EmptyString
                 :: split_go sep (Nat.pred (String.length sep)) EmptyString s'
          else split_go sep O (String c cur) s'
      end
  end.

Definition split (sep s : string) : list string := split_go sep O EmptyString s.

(** [l[0]] and [l[-1]] on the (never empty) result of [split]. *)
Definition first_piece (l : list string) : string := hd EmptyString l.
Definition last_piece (l : list string) : string := List.last l EmptyString.

(** [s.rfind(c)]: index of the last occurrence of [c], or -1. *)
Fixpoint rfind (c : ascii) (s : string) : Z :=
  match s with
  | EmptyString => -1
  | String a s' =>
      let r := rfind c s' in
      if 0 <=? r then r + 1 else if Ascii.eqb a c then 0 else -1
  end.

(** The slices [s[:i]] and [s[i:]] for [0 <= i]. *)
Fixpoint take (i : nat) (s : string) : string :=
  match i, s with
  | S j, String c s' => String c (take j s')
  | _, _ => EmptyString
  end.

Fixpoint drop (i : nat) (s : string) : string :=
  match i, s with
  | S j, String _ s' => drop j s'
  | _, _ => s
  end.

Definition code (c : ascii) : Z := Z.of_N (N_of_ascii c).

(** [s.lower()]: only 'A'..'Z' can become one of the ASCII letters the
    extension test compares against, so the other characters are kept. *)
Definition lower_char (c : ascii) : ascii :=
  if (65 <=? code c) && (code c <=? 90)
  then ascii_of_N (N_of_ascii c + 32) else c.

Fixpoint lower (s : string) : string :=
  match s with
  | EmptyString => EmptyString
  | String c s' => String (lower_char c) (lower s')
  end.

(** *** [int(s)] on a string *)

(** Characters that [int] strips on both sides. *)
Definition is_space (c : ascii) : bool :=
  ((9 <=? code c) && (code c <=? 13)) || (code c =? 32)
  || (code c =? 133) || (code c =? 160).

Definition is_digit (c : ascii) : bool := (48 <=? code c) && (code c <=? 57).

Definition digit_val (c : ascii) : Z := code c - 48.

Fixpoint lstrip (s : string) : string :=
  match s with
  | EmptyString => EmptyString
  | String c s' => if is_space c then lstrip s' else s
  end.

Fixpoint rstrip (s : string) : string :=
  match s with
  | EmptyString => EmptyString
  | String c s' =>
      match rstrip s' with
      | EmptyString => if is_space c then EmptyString else String c EmptyString
      | r => String c r
      end
  end.

(** Decimal digits with single underscores allowed between two digits;
    [after_digit] tells whether the previous character was a digit. *)
Fixpoint int_digits (acc : Z) (after_digit : bool) (s : string) : option Z :=
  match s with
  | EmptyString => if after_digit then Some acc else None
  | String c s' =>
      if is_digit c then int_digits (10 * acc + digit_val c) true s'
      else if Ascii.eqb c "_"
           then (if after_digit then int_digits acc false s' else None)
           else None
  end.

(** [int(s)]: [None] stands for [ValueError]. *)
Definition py_int (s : string) : option Z :=
  match lstrip (rstrip s) with
  | EmptyString => None
  | String c d =>
      if Ascii.eqb c "-" then option_map Z.opp (int_digits 0 false d)
      else if Ascii.eqb c "+" then int_digits 0 false d
      else int_digits 0 false (String c d)
  end.

(** *** [str(n)] on an integer *)

Definition digit_char (d : Z) : ascii := ascii_of_N (Z.to_N (48 + d)).

(** Digits of [n >= 0], most significant first, in front of [acc]. *)
Fixpoint str_digits (fuel : nat) (n : Z) (acc : string) : string :=
  let acc' := String (digit_char (n mod 10)) acc in
  match fuel with
  | O => acc'
  | S f => if n <? 10 then acc' else str_digits f (n / 10) acc'
  end.

Definition py_str (z : Z) : string :=
  if z <? 0
  then String "-" (str_digits (Z.to_nat (Z.log2 (- z))) (- z) EmptyString)
  else str_digits (Z.to_nat (Z.log2 z)) z EmptyString.

(* ================================================================== *)
(** ** Exceptions and results                                          *)
(* ================================================================== *)

(** The exceptions the watcher can meet.  All but [KeyboardInterrupt]
    derive from [Exception]; only [RuntimeError] is one. *)
Inductive exn : Type :=
  | ValueError
  | FileExistsError
  | FileNotFoundError
  | OSError
  | RuntimeError
  | KeyboardInterrupt.

Definition is_RuntimeError (e : exn) : bool :=
  match e with RuntimeError => true | _ => false end.

Definition is_Exception (e : exn) : bool :=
  match e with KeyboardInterrupt => false | _ => true end.

Inductive result (A : Type) : Type :=
  | Return (a : A)
  | Raise (e : exn).
Arguments Return {A} a.
Arguments Raise {A} e.

(* ================================================================== *)
(** ** pathlib                                                         *)
(* ================================================================== *)

(** A path: the components above the final one, and the final one.  A
    final component never holds a path separator. *)
Record Path : Type := mkPath { dirs : list string; name : string }.

Module PurePath.

(** [folder / child]. *)
Definition joinpath (folder : Path) (child : string) : Path :=
  mkPath (dirs folder ++ [name folder]) child.

(** [path.parents], nearest first. *)
Fixpoint ancestors (rev_dirs : list string) : list Path :=
  match rev_dirs with
  | [] => []
  | d :: above => mkPath (List.rev above) d :: ancestors above
  end.

Definition parents (path : Path) : list Path := ancestors (List.rev (dirs path)).

(** Does the last dot of [n] split off an extension? *)
Definition has_suffix (n : string) : bool :=
  let i := rfind "." n in
  (0 <? i) && (i <? Z.of_nat (String.length n) - 1).

Definition suffix (path : Path) : string :=
  let n := name path in
  if has_suffix n then drop (Z.to_nat (rfind "." n)) n else EmptyString.

Definition stem (path : Path) : string :=
  let n := name path in
  if has_suffix n then take (Z.to_nat (rfind "." n)) n else n.

(** [path.with_name(new)]: [ValueError] on a path without a name or on
    an empty or dot-only new name. *)
Definition with_name (path : Path) (new : string) : result Path :=
  if String.eqb (name path) EmptyString then Raise ValueError
  else if String.eqb new EmptyString || String.eqb new "." then Raise ValueError
  else Return (mkPath (dirs path) new).

(** [path.with_suffix(sfx)] for a non-empty [sfx]: it must start with
    a dot and be more than the dot; the old suffix is cut off first. *)
Definition with_suffix (path : Path) (sfx : string) : result Path :=
  if negb (startswith "." sfx) || String.eqb sfx "." then Raise ValueError
  else
    let n := name path in
    if String.eqb n EmptyString then Raise ValueError
    else
      let old := suffix path in
      Return (mkPath (dirs path)
                (take (String.length n - String.length old) n +:+ sfx)).

End PurePath.

Notation "folder // child" := (PurePath.joinpath folder child)
  (at level 40, left associativity).

Global Instance Path_eq_dec : EqDecision Path.
Proof. solve_decision. Defined.

Global Instance Path_countable : Countable Path.
Proof.
  apply (inj_countable' (fun p => (dirs p, name p))
                        (fun '(d, n) => mkPath d n)).
  by intros [].
Defined.

(* ================================================================== *)
(** ** CONFIG                                                          *)
(* ================================================================== *)

Definition WATCH_FOLDER : Path :=
  mkPath ["C:\"; "Users"; "SONIARN";
          "OneDrive - Mercedes-Benz (corpdir.onmicrosoft.com)";
          "DWT_ExpiryVision - Documents"]%string
         "Labels".

Definition PROCESSED_FOLDER : Path := WATCH_FOLDER // "Processed".
Definition RETRY_FOLDER : Path := WATCH_FOLDER // "Retry".

Definition SUPPORTED_EXTENSIONS : list string := [".jpg"; ".jpeg"; ".png"]%string.

Definition MAX_RETRIES : Z := 3.
Definition LOCK_SUFFIX : string := ".lock".

(** The retry marker both ledger functions look for. *)
Definition RETRY_MARK : string := "__retry".

(* ================================================================== *)
(** ** The world: files, console, collaborators                        *)
(* ================================================================== *)

Inductive message : Type :=
  | NewLabel (n : string)
  | NotStable (n : string)
  | FileLocked (n : string)
  | UnexpectedError (e : exn)
  | Running
  | ProcessedTo (destination : Path)
  | ProcessingFailed (attempt : Z)
  | Stderr (text : string)
  | MovedToRetry (new_path : Path)
  | MaxRetriesReached (n : string).

Record World : Type := mkWorld {
  files : gmap Path string;      (* path -> bytes of the file there *)
  console : list message          (* what was printed, oldest first *)
}.

(** What [subprocess.run] does for one call: the collaborator finishes
    with a return code and an error stream, or the call itself raises. *)
Inductive run_result : Type :=
  | Completed (returncode : Z) (stderr : string)
  | RunRaises (e : exn).

(** A create event of the observer. *)
Record Event : Type := mkEvent { is_directory : bool; src_path : Path }.

(** Computations that change the world and may raise. *)
Definition M (A : Type) : Type := World -> result A * World.

Definition ret {A} (a : A) : M A := fun w => (Return a, w).
Definition raise {A} (e : exn) : M A := fun w => (Raise e, w).
Definition bind {A B} (m : M A) (k : A -> M B) : M B :=
  fun w => match m w with
           | (Return a, w') => k a w'
           | (Raise e, w') => (Raise e, w')
           end.
Definition lift {A} (r : result A) : M A := fun w => (r, w).

(** [try: m except ...: h e]. *)
Definition try_except {A} (m : M A) (h : exn -> M A) : M A :=
  fun w => match m w with
           | (Return a, w') => (Return a, w')
           | (Raise e, w') => h e w'
           end.

(** [try: m finally: c]: [c] always runs; an exception of [c] wins. *)
Definition try_finally {A} (m : M A) (c : M unit) : M A :=
  fun w => match m w with
           | (r, w') =>
               match c w' with
               | (Return _, w'') => (r, w'')
               | (Raise e, w'') => (Raise e, w'')
               end
           end.

Notation "x <- m ;; k" := (bind m (fun x => k))
  (at level 100, m at next level, right associativity).
Notation "m ;;; k" := (bind m (fun _ => k))
  (at level 100, right associativity).

Definition print (msg : message) : M unit :=
  fun w => (Return tt, mkWorld (files w) (console w ++ [msg])).

(** [p.exists()]. *)
Definition path_exists (p : Path) : M bool :=
  fun w => (Return (bool_decide (is_Some (files w !! p))), w).

(** [p.touch(exist_ok=False)]: exclusive creation of an empty file. *)
Definition touch_new (p : Path) : M unit :=
  fun w => match files w !! p with
           | Some _ => (Raise FileExistsError, w)
           | None => (Return tt, mkWorld (<[p := EmptyString]> (files w)) (console w))
           end.

(** [p.unlink()]. *)
Definition unlink (p : Path) : M unit :=
  fun w => match files w !! p with
           | Some _ => (Return tt, mkWorld (delete p (files w)) (console w))
           | None => (Raise FileNotFoundError, w)
           end.

(** [shutil.move(src, dst)] of a file onto a file path: the file leaves
    [src] and is afterwards at [dst], replacing what was there. *)
Definition shutil_move (src dst : Path) : M unit :=
  fun w => match files w !! src with
           | Some data =>
               (Return tt, mkWorld (<[dst := data]> (delete src (files w))) (console w))
           | None => (Raise FileNotFoundError, w)
           end.

(* ================================================================== *)
(** ** SAFETY: the helpers of the watcher                              *)
(* ================================================================== *)

Definition is_image_file (path : Path) : bool :=
  bool_decide (lower (PurePath.suffix path) ∈ SUPPORTED_EXTENSIONS).

(** The loop of [wait_until_file_stable].  [st_size i] is what the
    [i]-th call of [path.stat().st_size] gives: a size, or the exception
    of a failed read.  [todo] iterations remain, [i] reads were made.
    The second component counts the reads made in all. *)
Fixpoint stable_loop (st_size : nat -> result N) (todo i : nat) (last_size : Z)
  : result bool * nat :=
  match todo with
  | O => (Return false, i)
  | S todo' =>
      match st_size i with
      | Raise e => (Raise e, S i)
      | Return current_size =>
          if Z.of_N current_size =? last_size then (Return true, S i)
          else stable_loop st_size todo' (S i) (Z.of_N current_size)
      end
  end.

Definition wait_until_file_stable (st_size : nat -> result N) (timeout : Z)
  : result bool * nat :=
  stable_loop st_size (Z.to_nat timeout) 0 (-1).

Definition get_retry_count (path : Path) : Z :=
  if contains RETRY_MARK (PurePath.stem path)
  then match py_int (last_piece (split RETRY_MARK (PurePath.stem path))) with
       | Some n => n
       | None => 0
       end
  else 0.

Definition increment_retry (path : Path) : result Path :=
  let count := get_retry_count path + 1 in
  let base := first_piece (split RETRY_MARK (PurePath.stem path)) in
  PurePath.with_name path
    (base +:+ RETRY_MARK +:+ py_str count +:+ PurePath.suffix path).

(** Entering [with file_lock(path)]: exclusive creation of the marker. *)
Definition acquire (lock_file : Path) : M unit :=
  try_except (touch_new lock_file)
    (fun e => match e with
              | FileExistsError => raise RuntimeError
              | _ => raise e
              end).

(** Leaving it: the [finally] clause. *)
Definition release (lock_file : Path) : M unit :=
  present <- path_exists lock_file ;;
  if present then unlink lock_file else ret tt.

(** [with file_lock(path): body]. *)
Definition file_lock {A} (path : Path) (body : M A) : M A :=
  lock_file <- lift (PurePath.with_suffix path (PurePath.suffix path +:+ LOCK_SUFFIX)) ;;
  acquire lock_file ;;;
  try_finally body (release lock_file).

(* ================================================================== *)
(** ** EVENT HANDLER                                                   *)
(* ================================================================== *)

Definition process_file (run : run_result) (path : Path) : M unit :=
  print Running ;;;
  match run with
  | RunRaises e => raise e
  | Completed returncode stderr =>
      if returncode =? 0 then
        let destination := PROCESSED_FOLDER // name path in
        shutil_move path destination ;;;
        print (ProcessedTo destination)
      else
        let retry_count := get_retry_count path in
        print (ProcessingFailed (retry_count + 1)) ;;;
        print (Stderr stderr) ;;;
        if retry_count <? MAX_RETRIES then
          renamed <- lift (increment_retry path) ;;
          let new_path := RETRY_FOLDER // name renamed in
          shutil_move path new_path ;;;
          print (MovedToRetry new_path)
        else
          print (MaxRetriesReached (name path))
  end.

(** The environment of one event: the sizes its reads of the file give
    and what running the extraction script does. *)
Record Env : Type := mkEnv {
  env_st_size : nat -> result N;
  env_run : run_result
}.

Definition in_internal_folder (path : Path) : bool :=
  existsb (fun folder => bool_decide (folder ∈ PurePath.parents path))
          [PROCESSED_FOLDER; RETRY_FOLDER].

Definition on_created (env : Env) (event : Event) : M unit :=
  if is_directory event then ret tt
  else
    let path := src_path event in
    if in_internal_folder path then ret tt
    else if negb (is_image_file path) then ret tt
    else
      print (NewLabel (name path)) ;;;
      stable <- lift (fst (wait_until_file_stable (env_st_size env) 10)) ;;
      if negb stable then print (NotStable (name path))
      else
        try_except (file_lock path (process_file (env_run env) path))
          (fun e =>
             if is_RuntimeError e then print (FileLocked (name path))
             else if is_Exception e then print (UnexpectedError e)
             else raise e).

(** The operator's re-drop of a file of the retry folder into the
    watched folder (not an action of the watcher). *)
Definition redrop (n : string) (w : World) : World :=
  match files w !! (RETRY_FOLDER // n) with
  | Some data =>
      mkWorld (<[WATCH_FOLDER // n := data]> (delete (RETRY_FOLDER // n) (files w)))
              (console w)
  | None => w
  end.

(* ================================================================== *)
(** ** Sample environments                                             *)
(* ================================================================== *)

(** A file whose size is [size] at every read. *)
Definition steady (size : N) : nat -> result N := fun _ => Return size.

(** A file that has grown at every read. *)
Definition growing : nat -> result N := fun i => Return (N.of_nat i).

(** A file read once and removed before the second read. *)
Definition vanishing : nat -> result N :=
  fun i => match i with O => Return 5%N | S _ => Raise FileNotFoundError end.

(** The create event of a file [n] of the watched folder. *)
Definition created (n : string) : Event := mkEvent false (WATCH_FOLDER // n).

(** A world with one label in the watched folder. *)
Definition one_label (n : string) : World :=
  mkWorld {[ WATCH_FOLDER // n := "image bytes"%string ]} [].

Definition extraction_fails : Env := mkEnv (steady 2048) (Completed 1 "no expiry date found").
Definition extraction_succeeds : Env := mkEnv (steady 2048) (Completed 0 "").

(** The world after the event of [n] was handled in [w]. *)
Definition handled (env : Env) (n : string) (w : World) : World :=
  snd (on_created env (created n) w).

(** [n] applications of [increment_retry]. *)
Fixpoint retry_chain (n : nat) (path : Path) : result Path :=
  match n with
  | O => Return path
  | S k =>
      match retry_chain k path with
      | Return p => increment_retry p
      | Raise e => Raise e
      end
  end.

(* ================================================================== *)
(** ** Notions used to state the properties                            *)
(* ================================================================== *)

(** No occurrence of [sep] begins inside [b] when [b] is followed by
    [rest]: what lets the scan of [split] run through [b]. *)
Fixpoint unmatched (sep b rest : string) : bool :=
  match b with
  | EmptyString => true
  | String c b' => negb (startswith sep (b +:+ rest)) && unmatched sep b' rest
  end.

(** The text before the first occurrence of [sep]. *)
Fixpoint before (sep s : string) : string :=
  match s with
  | EmptyString => EmptyString
  | String c s' => if startswith sep s then EmptyString else String c (before sep s')
  end.

(** Every character of [s] passes the test [P]. *)
Fixpoint all_chars (P : ascii -> bool) (s : string) : bool :=
  match s with
  | EmptyString => true
  | String c s' => P c && all_chars P s'
  end.

(** The number a run of decimal digits denotes, continuing from [acc]. *)
Fixpoint digits_val (acc : Z) (s : string) : Z :=
  match s with
  | EmptyString => acc
  | String c s' => digits_val (10 * acc + digit_val c) s'
  end.

(** The characters [str] writes for an integer. *)
Definition is_numeral_char (c : ascii) : bool := is_digit c || Ascii.eqb c "-".

(** A proper extension: a dot, then at least one character, none a dot. *)
Definition is_extension (sfx : string) : bool :=
  match sfx with
  | String "." (String c r) => negb (Ascii.eqb c ".") && all_chars (fun a => negb (Ascii.eqb a ".")) r
  | _ => false
  end.

(** [s.endswith(c)] for one character. *)
Fixpoint endswith_char (c : ascii) (s : string) : bool :=
  match s with
  | EmptyString => false
  | String a EmptyString => Ascii.eqb a c
  | String _ s' => endswith_char c s'
  end.

(** The name the ledger writes for attempt [k] of the item with base
    stem [base] and extension [sfx]. *)
Definition retry_name (base : string) (k : Z) (sfx : string) : string :=
  base +:+ RETRY_MARK +:+ py_str k +:+ sfx.

(** A fresh name: no retry marker in its stem. *)
Definition fresh (path : Path) : bool :=
  negb (contains RETRY_MARK (PurePath.stem path)).

(** [base_name]: the stem with any retry marker cut off. *)
Definition base_name (path : Path) : string :=
  first_piece (split RETRY_MARK (PurePath.stem path)).

(** The condition under which pathlib reads [base ++ marker ++ sfx]
    back as stem and suffix: a proper extension, or no extension and no
    dot in the base after its first character. *)
Definition readable (b sfx : string) : Prop :=
  is_extension sfx = true \/ (sfx = EmptyString /\ rfind "." b <= 0).

(** The marker file of [path]. *)
Definition lock_path (path : Path) : Path :=
  mkPath (dirs path) (name path +:+ LOCK_SUFFIX).

(** The reads of a file that can always be read: read [i] gives
    [sizes i]. *)
Definition reads (sizes : nat -> N) : nat -> result N :=
  fun i => Return (sizes i).

(** [last_size] when read [i] is made after [i] successful reads. *)
Definition size_before (sizes : nat -> N) (i : nat) : Z :=
  match i with
  | O => -1
  | S j => Z.of_N (sizes j)
  end.

(** The event gets as far as the lock: a file with a supported extension
    outside the internal folders, confirmed stable. *)
Definition reaches_lock (env : Env) (event : Event) : bool :=
  negb (is_directory event)
  && negb (in_internal_folder (src_path event))
  && is_image_file (src_path event)
  && match fst (wait_until_file_stable (env_st_size env) 10) with
     | Return true => true
     | _ => false
     end.

(** The event gets as far as the extraction: it reaches the lock and
    the marker is free. *)
Definition reaches_extraction (env : Env) (event : Event) (w : World) : bool :=
  reaches_lock env event
  && bool_decide (files w !! lock_path (src_path event) = None).

(** What the handler of [on_created] prints for an exception, if it
    handles it. *)
Definition handler_message (path : Path) (e : exn) : option message :=
  if is_RuntimeError e then Some (FileLocked (name path))
  else if is_Exception e then Some (UnexpectedError e)
  else None.

(** The name of the label of the watched folder after one more failed
    extraction: the next retry name below [MAX_RETRIES], its own name
    from there on. *)
Definition name_after_failure (n : string) : string :=
  if get_retry_count (WATCH_FOLDER // n) <? MAX_RETRIES
  then match increment_retry (WATCH_FOLDER // n) with
       | Return renamed => name renamed
       | Raise _ => n
       end
  else n.

(** [k] rounds of: the event of the label [n] is handled, its extraction
    fails, and the operator drops the file back into the watched folder
    when the watcher has put it into the retry folder.  The result is
    the name the label then has, and the world. *)
Fixpoint fail_repeatedly (k : nat) (n : string) (w : World) : string * World :=
  match k with
  | O => (n, w)
  | S k' =>
      let '(n', w') := fail_repeatedly k' n w in
      let next := name_after_failure n' in
      (next, redrop next (handled extraction_fails n' w'))
  end.

(** The retry folder path of the next retry name of [path]. *)
Definition retry_destination (path : Path) : Path :=
  RETRY_FOLDER // retry_name (base_name path) (get_retry_count path + 1)
                             (PurePath.suffix path).

(** A world without files. *)
Definition no_files : World := mkWorld ∅ [].

(** A file that is gone: every read of its size fails. *)
Definition gone : nat -> result N := fun _ => Raise FileNotFoundError.

(** *** Proof steps *)

(** Evaluate the character tests of the goal: those on a variable by
    cases, those on two literals by computation. *)
Ltac char_tests :=
  repeat match goal with
    | |- context [Ascii.eqb ?a ?b] =>
        tryif is_var b
        then destruct (Ascii.eqb a b)
        else (let r := eval vm_compute in (Ascii.eqb a b) in
              change (Ascii.eqb a b) with r)
    end;
  cbn [andb orb negb].

(** Unfold the operations of [M] in the goal. *)
Ltac run_M :=
  unfold bind, ret, raise, lift, print, shutil_move, try_except, try_finally,
    path_exists, touch_new, unlink; cbn [files console fst snd].


(* ================================================================== *)
(** * Properties                                                       *)
(* ================================================================== *)

(** ** The primitives on sample inputs *)

Example split_two : split "__retry" "a__retry1__retry2" = ["a"; "1"; "2"]%string.
Proof. reflexivity. Qed.
Example split_sep : split "__retry" "__retry" = [""; ""]%string.
Proof. reflexivity. Qed.
Example split_u : split "__retry" "a___retry3" = ["a_"; "3"]%string.
Proof. reflexivity. Qed.
Example int_ex :
  (py_int " 5", py_int "-5", py_int "- 5", py_int "1_0", py_int "_1",
   py_int "1_", py_int "1__0", py_int "007", py_int "", py_int "-", py_int "-0",
   py_int "+-5", py_int "5 ", py_int "2b")
  = (Some 5, Some (-5), None, Some 10, None, None, None, Some 7, None, None,
     Some 0, None, Some 5, None).
Proof. reflexivity. Qed.
Example str_ex : (py_str 0, py_str (-4), py_str 12345, py_str 10, py_str 99)
  = ("0", "-4", "12345", "10", "99")%string.
Proof. reflexivity. Qed.

Example parts_ex :
  (PurePath.stem (mkPath [] "a.jpg"), PurePath.suffix (mkPath [] "a.jpg"),
   PurePath.stem (mkPath [] ".hidden"), PurePath.suffix (mkPath [] ".hidden"),
   PurePath.stem (mkPath [] "a."), PurePath.suffix (mkPath [] "a."),
   PurePath.stem (mkPath [] "a..jpg"), PurePath.suffix (mkPath [] "a..jpg"),
   PurePath.stem (mkPath [] "a.__retry1"), PurePath.suffix (mkPath [] "a.__retry1"))
  = ("a", ".jpg", ".hidden", "", "a.", "", "a.", ".jpg", "a", ".__retry1")%string.
Proof. reflexivity. Qed.

Example lock_ex :
  PurePath.with_suffix (WATCH_FOLDER // "x.jpg")
    (PurePath.suffix (WATCH_FOLDER // "x.jpg") +:+ LOCK_SUFFIX)
  = Return (WATCH_FOLDER // "x.jpg.lock").
Proof. reflexivity. Qed.

Example image_ex :
  (is_image_file (WATCH_FOLDER // "x.JPG"), is_image_file (WATCH_FOLDER // "x.jpeg"),
   is_image_file (WATCH_FOLDER // "x.txt"), is_image_file (WATCH_FOLDER // "jpg"),
   in_internal_folder (WATCH_FOLDER // "x.jpg"),
   in_internal_folder (RETRY_FOLDER // "x.jpg"))
  = (true, true, false, false, false, true).
Proof. reflexivity. Qed.

(** ** Strings: append, slices, reversal *)

Lemma app_cons (c : ascii) (s t : string) : String c s +:+ t = String c (s +:+ t).
Proof. reflexivity. Qed.

Lemma app_empty_l (t : string) : EmptyString +:+ t = t.
Proof. reflexivity. Qed.

Lemma app_empty_r (s : string) : s +:+ EmptyString = s.
Proof. induction s as [|c s IH]; [reflexivity|]. by rewrite app_cons, IH. Qed.

Lemma app_assoc_str (s t u : string) : (s +:+ t) +:+ u = s +:+ (t +:+ u).
Proof. induction s as [|c s IH]; [reflexivity|]. by rewrite !app_cons, IH. Qed.

Lemma length_app_str (s t : string) :
  String.length (s +:+ t) = (String.length s + String.length t)%nat.
Proof. induction s as [|c s IH]; [reflexivity|]. rewrite app_cons. simpl. by rewrite IH. Qed.

Lemma take_app_length (s t : string) : take (String.length s) (s +:+ t) = s.
Proof.
  induction s as [|c s IH]; [by destruct t|].
  rewrite app_cons. simpl. by rewrite IH.
Qed.

Lemma drop_app_length (s t : string) : drop (String.length s) (s +:+ t) = t.
Proof. induction s as [|c s IH]; [by destruct t|]. by rewrite app_cons. Qed.

Lemma take_drop (i : nat) (s : string) : take i s +:+ drop i s = s.
Proof.
  revert s; induction i as [|i IH]; intros [|c s]; simpl; try reflexivity.
  by rewrite app_cons, IH.
Qed.

Lemma rev_onto_twice (b cur acc : string) :
  rev_onto (rev_onto b cur) acc = rev_onto cur (b +:+ acc).
Proof.
  revert cur acc; induction b as [|c b IH]; intros cur acc; simpl; [reflexivity|].
  by rewrite IH.
Qed.

(** ** Strings: [startswith], [in] and [split] *)

Lemma startswith_app (p x z : string) :
  startswith p x = true -> startswith p (x +:+ z) = true.
Proof.
  revert x; induction p as [|a p IH]; intros x H; [reflexivity|].
  destruct x as [|b x]; [discriminate|].
  rewrite app_cons. simpl in *.
  apply andb_true_iff in H as [-> H]. simpl. by apply IH.
Qed.

Lemma startswith_self_app (p t : string) : startswith p (p +:+ t) = true.
Proof.
  induction p as [|a p IH]; [reflexivity|].
  rewrite app_cons. simpl. by rewrite Ascii.eqb_refl, IH.
Qed.

Lemma contains_app_r (sep b t : string) :
  contains sep t = true -> contains sep (b +:+ t) = true.
Proof.
  intros H. induction b as [|c b IH]; [exact H|].
  rewrite app_cons. simpl. rewrite IH. apply orb_true_r.
Qed.

Lemma contains_marked (sep b t : string) : contains sep (b +:+ sep +:+ t) = true.
Proof.
  apply contains_app_r. destruct (sep +:+ t) eqn:E; simpl.
  - pose proof (startswith_self_app sep t) as H. rewrite E in H. by rewrite H.
  - rewrite <- E. by rewrite startswith_self_app.
Qed.

Lemma split_go_unmatched (sep b cur rest : string) :
  unmatched sep b rest = true ->
  split_go sep O cur (b +:+ rest) = split_go sep O (rev_onto b cur) rest.
Proof.
  revert cur; induction b as [|c b IH]; intros cur H; [reflexivity|].
  simpl in H. apply andb_true_iff in H as [H1 H2].
  apply negb_true_iff in H1.
  rewrite app_cons in H1 |- *. simpl. rewrite H1. by apply IH.
Qed.

Lemma split_go_skip (sep u cur t : string) :
  split_go sep (String.length u) cur (u +:+ t) = split_go sep O cur t.
Proof.
  induction u as [|c u IH]; [reflexivity|].
  rewrite app_cons. simpl. exact IH.
Qed.

Lemma split_go_at_sep (sep cur t : string) :
  sep <> EmptyString ->
  split_go sep O cur (sep +:+ t)
  = rev_onto cur EmptyString :: split_go sep O EmptyString t.
Proof.
  intros Hne. pose proof (startswith_self_app sep t) as Hs.
  destruct sep as [|a sep']; [done|].
  rewrite app_cons in Hs |- *. simpl split_go.
  cbn [startswith] in Hs |- *. rewrite Hs.
  cbn [String.length Nat.pred]. by rewrite split_go_skip.
Qed.

(** Cutting at a marker that is the first one. *)
Lemma split_marked (sep b t : string) :
  sep <> EmptyString ->
  unmatched sep b (sep +:+ t) = true ->
  split sep (b +:+ sep +:+ t) = b :: split sep t.
Proof.
  intros Hne Hb. unfold split.
  rewrite split_go_unmatched by done.
  rewrite split_go_at_sep by done.
  by rewrite rev_onto_twice, app_empty_r.
Qed.

Lemma unmatched_of_contains (sep b : string) :
  contains sep b = false -> unmatched sep b EmptyString = true.
Proof.
  induction b as [|c b IH]; [reflexivity|].
  intros H. simpl in H. apply orb_false_iff in H as [H1 H2].
  simpl. rewrite app_empty_r. simpl. rewrite H1. simpl. by apply IH.
Qed.

(** Without the separator the string is the only piece. *)
Lemma split_plain (sep s : string) :
  contains sep s = false -> split sep s = [s].
Proof.
  intros H. unfold split.
  rewrite <- (app_empty_r s) at 1.
  rewrite split_go_unmatched by by apply unmatched_of_contains.
  simpl. by rewrite rev_onto_twice, app_empty_r.
Qed.

Lemma first_piece_split_go (sep cur s : string) :
  first_piece (split_go sep O cur s) = rev_onto cur (before sep s).
Proof.
  revert cur; induction s as [|c s IH]; intros cur; [reflexivity|].
  cbn [split_go before]. destruct (startswith sep (String c s)); [reflexivity|].
  rewrite IH. reflexivity.
Qed.

Lemma first_piece_split (sep s : string) :
  first_piece (split sep s) = before sep s.
Proof. unfold split. by rewrite first_piece_split_go. Qed.

Lemma before_prefix (sep s : string) : exists z, s = before sep s +:+ z.
Proof.
  induction s as [|c s [z IH]]; [by exists EmptyString|].
  cbn [before]. destruct (startswith sep (String c s)).
  - by exists (String c s).
  - exists z. rewrite app_cons. by rewrite <- IH.
Qed.

Lemma before_clean (sep s : string) :
  sep <> EmptyString -> contains sep (before sep s) = false.
Proof.
  intros Hne. induction s as [|c s IH].
  - destruct sep; [done|reflexivity].
  - cbn [before]. destruct (startswith sep (String c s)) eqn:E.
    + destruct sep; [done|reflexivity].
    + cbn [contains]. rewrite IH, orb_false_r.
      destruct (startswith sep (String c (before sep s))) eqn:E'; [|done].
      destruct (before_prefix sep s) as [z Hz].
      apply (startswith_app _ _ z) in E'. rewrite app_cons, <- Hz in E'.
      congruence.
Qed.

Lemma before_plain (sep s : string) : contains sep s = false -> before sep s = s.
Proof.
  induction s as [|c s IH]; [reflexivity|].
  intros H. simpl in H. apply orb_false_iff in H as [H1 H2].
  cbn [before]. rewrite H1. by rewrite IH.
Qed.

(** ** The retry marker *)

Lemma startswith_cons (a b : ascii) (p s : string) :
  startswith (String a p) (String b s) = Ascii.eqb a b && startswith p s.
Proof. reflexivity. Qed.

Lemma startswith_empty_r (a : ascii) (p : string) :
  startswith (String a p) EmptyString = false.
Proof. reflexivity. Qed.

Lemma startswith_empty_l (s : string) : startswith EmptyString s = true.
Proof. reflexivity. Qed.

Lemma RETRY_MARK_nonempty : RETRY_MARK <> EmptyString.
Proof. discriminate. Qed.

(** The marker has no border: an occurrence cannot begin in the text
    before a marker and run into it. *)
Lemma marker_no_overlap (v t : string) :
  v <> EmptyString ->
  startswith RETRY_MARK v = false ->
  startswith RETRY_MARK (v +:+ RETRY_MARK +:+ t) = false.
Proof.
  intros Hne H. unfold RETRY_MARK in *.
  destruct v as [|c1 [|c2 [|c3 [|c4 [|c5 [|c6 [|c7 v]]]]]]]; [done|..];
    rewrite ?app_cons, ?app_empty_l;
    rewrite ?startswith_cons, ?startswith_empty_r, ?startswith_empty_l in H |- *;
    try exact H; clear H; char_tests; reflexivity.
Qed.

Lemma unmatched_before_marker (b t : string) :
  contains RETRY_MARK b = false ->
  unmatched RETRY_MARK b (RETRY_MARK +:+ t) = true.
Proof.
  induction b as [|c b IH]; [reflexivity|].
  intros H. cbn [contains] in H. apply orb_false_iff in H as [H1 H2].
  cbn [unmatched]. rewrite marker_no_overlap by done.
  by rewrite IH.
Qed.

(** The two ledger readings of a stem that ends in one marker. *)
Lemma split_last_marker (b d : string) :
  contains RETRY_MARK b = false ->
  contains RETRY_MARK d = false ->
  split RETRY_MARK (b +:+ RETRY_MARK +:+ d) = [b; d].
Proof.
  intros Hb Hd.
  rewrite split_marked
    by auto using RETRY_MARK_nonempty, unmatched_before_marker.
  by rewrite split_plain.
Qed.

(** ** Decimal numerals: [int (str z) = z] *)

Lemma all_chars_app (P : ascii -> bool) (s t : string) :
  all_chars P (s +:+ t) = all_chars P s && all_chars P t.
Proof.
  induction s as [|c s IH]; [reflexivity|].
  rewrite app_cons. cbn [all_chars]. by rewrite IH, andb_assoc.
Qed.

Lemma all_chars_impl (P Q : ascii -> bool) (s : string) :
  (forall c, P c = true -> Q c = true) ->
  all_chars P s = true -> all_chars Q s = true.
Proof.
  intros HPQ. induction s as [|c s IH]; [done|].
  cbn [all_chars]. rewrite !andb_true_iff. intros [? ?]. auto.
Qed.

Lemma digit_char_cases (d : Z) :
  0 <= d <= 9 ->
  In (digit_char d) ["0"; "1"; "2"; "3"; "4"; "5"; "6"; "7"; "8"; "9"]%char
  /\ digit_val (digit_char d) = d.
Proof.
  intros H.
  assert (d = 0 \/ d = 1 \/ d = 2 \/ d = 3 \/ d = 4 \/ d = 5 \/ d = 6
          \/ d = 7 \/ d = 8 \/ d = 9) as Hd by lia.
  repeat (destruct Hd as [-> | Hd]); try subst d; (split; [cbv; tauto | reflexivity]).
Qed.

Lemma digit_char_is_digit (d : Z) : 0 <= d <= 9 -> is_digit (digit_char d) = true.
Proof.
  intros H. destruct (digit_char_cases d H) as [Hin _].
  cbn [In] in Hin.
  repeat (destruct Hin as [<- | Hin]; [reflexivity|]). done.
Qed.

Lemma digits_val_app (a : Z) (s t : string) :
  digits_val a (s +:+ t) = digits_val (digits_val a s) t.
Proof.
  revert a; induction s as [|c s IH]; intros a; [reflexivity|].
  rewrite app_cons. cbn [digits_val]. by rewrite IH.
Qed.

Lemma int_digits_run (D s : string) (a : Z) (b : bool) :
  D <> EmptyString -> all_chars is_digit D = true ->
  int_digits a b (D +:+ s) = int_digits (digits_val a D) true s.
Proof.
  revert a b; induction D as [|c D IH]; intros a b Hne Hall; [done|].
  cbn [all_chars] in Hall. apply andb_true_iff in Hall as [Hc Hall].
  rewrite app_cons. cbn [int_digits digits_val]. rewrite Hc.
  destruct D as [|c' D]; [reflexivity|]. by apply IH.
Qed.

Lemma str_digits_app (f : nat) (n : Z) (acc : string) :
  str_digits f n acc = str_digits f n EmptyString +:+ acc.
Proof.
  revert n acc; induction f as [|f IH]; intros n acc; [reflexivity|].
  cbn [str_digits]. destruct (n <? 10); [reflexivity|].
  rewrite IH. rewrite (IH _ (String _ EmptyString)).
  by rewrite app_assoc_str.
Qed.

Lemma str_digits_spec (f : nat) (n : Z) :
  0 <= n < 10 ^ (Z.of_nat f + 1) ->
  str_digits f n EmptyString <> EmptyString
  /\ all_chars is_digit (str_digits f n EmptyString) = true
  /\ digits_val 0 (str_digits f n EmptyString) = n.
Proof.
  revert n; induction f as [|f IH]; intros n Hn.
  - change (10 ^ (Z.of_nat 0 + 1)) with 10 in Hn.
    cbn [str_digits]. rewrite Z.mod_small by lia.
    destruct (digit_char_cases n) as [_ Hv]; [lia|].
    repeat split; [done| |].
    + cbn [all_chars]. by rewrite digit_char_is_digit by lia.
    + cbn [digits_val]. lia.
  - cbn [str_digits]. destruct (Z.ltb_spec n 10) as [Hlt|Hge].
    + rewrite Z.mod_small by lia.
      destruct (digit_char_cases n) as [_ Hv]; [lia|].
      repeat split; [done| |].
      * cbn [all_chars]. by rewrite digit_char_is_digit by lia.
      * cbn [digits_val]. lia.
    + rewrite str_digits_app.
      assert (0 <= n / 10 < 10 ^ (Z.of_nat f + 1)) as Hq.
      { split; [apply Z.div_pos; lia|].
        apply Z.div_lt_upper_bound; [lia|].
        replace (Z.of_nat (S f) + 1) with (Z.succ (Z.of_nat f + 1)) in Hn by lia.
        rewrite Z.pow_succ_r in Hn by lia. lia. }
      destruct (IH _ Hq) as (Hne & Hall & Hval).
      assert (0 <= n mod 10 <= 9) as Hm by (pose proof (Z.mod_pos_bound n 10); lia).
      destruct (digit_char_cases _ Hm) as [_ Hv].
      repeat split.
      * destruct (str_digits f (n / 10) EmptyString); [done|]. by rewrite app_cons.
      * rewrite all_chars_app, Hall. cbn [all_chars].
        by rewrite digit_char_is_digit by lia.
      * rewrite digits_val_app, Hval. cbn [digits_val]. rewrite Hv.
        pose proof (Z.div_mod n 10). lia.
Qed.

Lemma log2_fuel (n : Z) : 0 <= n -> 0 <= n < 10 ^ (Z.of_nat (Z.to_nat (Z.log2 n)) + 1).
Proof.
  intros Hn. split; [done|].
  rewrite Z2Nat.id by apply Z.log2_nonneg.
  destruct (Z.eq_dec n 0) as [->|Hne]; [reflexivity|].
  pose proof (Z.log2_spec n ltac:(lia)) as [_ Hlt].
  eapply Z.lt_le_trans; [exact Hlt|].
  replace (Z.succ (Z.log2 n)) with (Z.log2 n + 1) by lia.
  apply Z.pow_le_mono_l. lia.
Qed.

Lemma numeral_char_cases (c : ascii) :
  is_numeral_char c = true -> 48 <= code c <= 57 \/ c = "-"%char.
Proof.
  unfold is_numeral_char, is_digit. intros H.
  apply orb_true_iff in H as [H|H].
  - left. apply andb_true_iff in H as [H1 H2]. lia.
  - right. by apply Ascii.eqb_eq.
Qed.

Lemma numeral_char_not_space (c : ascii) : is_numeral_char c = true -> is_space c = false.
Proof.
  intros [H | ->]%numeral_char_cases; [|reflexivity].
  unfold is_space.
  repeat match goal with
    | |- context [?x <=? ?y] => destruct (Z.leb_spec x y)
    | |- context [?x =? ?y] => destruct (Z.eqb_spec x y)
    end; try reflexivity; lia.
Qed.

Lemma numeral_char_differs (c x : ascii) :
  is_numeral_char x = false -> is_numeral_char c = true -> Ascii.eqb c x = false.
Proof.
  intros Hx Hc. destruct (Ascii.eqb_spec c x) as [->|]; [congruence|done].
Qed.

Lemma digit_differs (c x : ascii) :
  is_digit x = false -> is_digit c = true -> Ascii.eqb c x = false.
Proof.
  intros Hx Hc. destruct (Ascii.eqb_spec c x) as [->|]; [congruence|done].
Qed.

Lemma py_str_nonneg (z : Z) :
  0 <= z ->
  exists c D, py_str z = String c D /\ is_digit c = true
              /\ all_chars is_digit D = true
              /\ digits_val 0 (String c D) = z.
Proof.
  intros Hz. unfold py_str. destruct (Z.ltb_spec z 0); [lia|].
  destruct (str_digits_spec _ _ (log2_fuel z Hz)) as (Hne & Hall & Hval).
  destruct (str_digits _ z EmptyString) as [|c D]; [done|].
  cbn [all_chars] in Hall. apply andb_true_iff in Hall as [? ?].
  by exists c, D.
Qed.

Lemma py_str_chars (z : Z) : all_chars is_numeral_char (py_str z) = true.
Proof.
  assert (forall n, 0 <= n -> all_chars is_numeral_char (py_str n) = true) as Hpos.
  { intros n Hn. destruct (py_str_nonneg n Hn) as (c & D & -> & Hc & HD & _).
    cbn [all_chars]. unfold is_numeral_char at 1. rewrite Hc. cbn [orb andb].
    eapply all_chars_impl; [|exact HD].
    intros a Ha. unfold is_numeral_char. by rewrite Ha. }
  destruct (Z.ltb_spec z 0) as [Hneg|Hpos']; [|by apply Hpos].
  specialize (Hpos (- z) ltac:(lia)).
  unfold py_str in *. destruct (Z.ltb_spec z 0); [|lia].
  destruct (Z.ltb_spec (- z) 0); [lia|].
  cbn [all_chars]. by rewrite Hpos.
Qed.

Lemma rstrip_id (s : string) :
  all_chars (fun c => negb (is_space c)) s = true -> rstrip s = s.
Proof.
  induction s as [|c s IH]; [done|].
  cbn [all_chars]. intros [Hc Hs]%andb_true_iff.
  cbn [rstrip]. rewrite IH by done.
  destruct s; [|done]. apply negb_true_iff in Hc. by rewrite Hc.
Qed.

Lemma lstrip_id (s : string) :
  all_chars (fun c => negb (is_space c)) s = true -> lstrip s = s.
Proof.
  destruct s as [|c s]; [done|].
  cbn [all_chars lstrip]. intros [Hc _]%andb_true_iff.
  apply negb_true_iff in Hc. by rewrite Hc.
Qed.

Lemma py_str_no_space (z : Z) :
  all_chars (fun c => negb (is_space c)) (py_str z) = true.
Proof.
  eapply all_chars_impl; [|apply py_str_chars].
  intros c Hc. by rewrite numeral_char_not_space.
Qed.

(** Reading back what [str] wrote. *)
Lemma py_int_py_str (z : Z) : py_int (py_str z) = Some z.
Proof.
  unfold py_int.
  rewrite rstrip_id, lstrip_id by apply py_str_no_space.
  destruct (Z.ltb_spec z 0) as [Hneg|Hpos].
  - destruct (py_str_nonneg (- z) ltac:(lia)) as (c & D & E & Hc & HD & Hv).
    unfold py_str in *. destruct (Z.ltb_spec z 0); [|lia].
    destruct (Z.ltb_spec (- z) 0); [lia|].
    rewrite E. change (Ascii.eqb "-" "-") with true. cbn match.
    rewrite <- (app_empty_r (String c D)).
    rewrite int_digits_run; [|done|by cbn [all_chars]; rewrite Hc].
    cbn [int_digits option_map]. rewrite Hv. f_equal. lia.
  - destruct (py_str_nonneg z Hpos) as (c & D & -> & Hc & HD & Hv).
    rewrite (digit_differs c "+"), (digit_differs c "-") by done.
    rewrite <- (app_empty_r (String c D)).
    rewrite int_digits_run; [|done|by cbn [all_chars]; rewrite Hc].
    cbn [int_digits]. by rewrite Hv.
Qed.

(** ** [rfind], and the stem and suffix of a name *)

Lemma rfind_lower_bound (c : ascii) (s : string) : -1 <= rfind c s.
Proof.
  induction s as [|a s IH]; [done|].
  cbn [rfind]. destruct (Z.leb_spec 0 (rfind c s)); [lia|].
  destruct (Ascii.eqb a c); lia.
Qed.

Lemma rfind_app (c : ascii) (x y : string) :
  rfind c (x +:+ y)
  = if 0 <=? rfind c y then Z.of_nat (String.length x) + rfind c y else rfind c x.
Proof.
  induction x as [|a x IH].
  - rewrite app_empty_l. pose proof (rfind_lower_bound c y).
    destruct (Z.leb_spec 0 (rfind c y)); cbn [String.length rfind]; lia.
  - rewrite app_cons. cbn [rfind String.length]. rewrite IH.
    destruct (Z.leb_spec 0 (rfind c y)) as [Hy|Hy].
    + destruct (Z.leb_spec 0 (Z.of_nat (String.length x) + rfind c y)); lia.
    + reflexivity.
Qed.

Lemma rfind_absent (c : ascii) (s : string) :
  all_chars (fun a => negb (Ascii.eqb a c)) s = true -> rfind c s = -1.
Proof.
  induction s as [|a s IH]; [done|].
  cbn [all_chars]. intros [Ha Hs]%andb_true_iff.
  cbn [rfind]. rewrite IH by done. apply negb_true_iff in Ha. by rewrite Ha.
Qed.

Lemma rfind_absent_inv (c : ascii) (s : string) :
  rfind c s < 0 -> all_chars (fun a => negb (Ascii.eqb a c)) s = true.
Proof.
  induction s as [|a s IH]; [done|].
  cbn [rfind all_chars]. pose proof (rfind_lower_bound c s).
  destruct (Z.leb_spec 0 (rfind c s)); [lia|].
  destruct (Ascii.eqb a c); [lia|]. intros _. by rewrite IH by lia.
Qed.

(** The last occurrence cuts the string in two. *)
Lemma rfind_cut (c : ascii) (s : string) :
  0 <= rfind c s ->
  exists x r, s = x +:+ String c r
              /\ Z.of_nat (String.length x) = rfind c s
              /\ all_chars (fun a => negb (Ascii.eqb a c)) r = true.
Proof.
  induction s as [|a s IH]; [cbn [rfind]; lia|].
  cbn [rfind]. destruct (Z.leb_spec 0 (rfind c s)) as [Hs|Hs].
  - intros _. destruct (IH Hs) as (x & r & -> & Hlen & Hr).
    exists (String a x), r. rewrite app_cons. cbn [String.length]. split_and!; [done|lia|done].
  - destruct (Ascii.eqb_spec a c) as [->|]; [|lia]. intros _.
    exists EmptyString, s. split_and!; [done|done|by apply rfind_absent_inv].
Qed.

Lemma rfind_endswith (c : ascii) (s : string) :
  endswith_char c s = false ->
  rfind c s <> Z.of_nat (String.length s) - 1 \/ s = EmptyString.
Proof.
  induction s as [|a s IH]; [by right|].
  intros H. left. cbn [rfind String.length].
  destruct s as [|b s].
  - cbn [endswith_char] in H. cbn [rfind String.length]. rewrite H. cbn. lia.
  - change (endswith_char c (String a (String b s)))
      with (endswith_char c (String b s)) in H.
    destruct (IH H) as [IH'|]; [|done].
    pose proof (rfind_lower_bound c (String b s)).
    cbn [String.length] in IH' |- *.
    destruct (Z.leb_spec 0 (rfind c (String b s))); [lia|].
    destruct (Ascii.eqb a c); lia.
Qed.

Lemma is_extension_shape (sfx : string) :
  is_extension sfx = true ->
  sfx <> EmptyString /\ rfind "." sfx = 0 /\ (2 <= String.length sfx)%nat.
Proof.
  destruct sfx as [|d [|c r]]; try done.
  - cbn. destruct d as [[] [] [] [] [] [] [] []]; done.
  - intros H. assert (d = "."%char /\
      all_chars (fun a => negb (Ascii.eqb a ".")) (String c r) = true) as [-> Hr].
    { destruct (Ascii.eqb_spec d ".") as [->|Hd].
      - split; [done|]. exact H.
      - exfalso. revert H Hd. cbn.
        destruct d as [[] [] [] [] [] [] [] []]; try done. }
    split_and!; [done| |cbn [String.length]; lia].
    cbn [rfind]. rewrite (rfind_absent "." r).
    + cbn [all_chars] in Hr. apply andb_true_iff in Hr as [Hc _].
      apply negb_true_iff in Hc. rewrite Hc. reflexivity.
    + cbn [all_chars] in Hr. by apply andb_true_iff in Hr as [_ ?].
Qed.

(** A name made of a non-empty stem and a proper extension is read
    back as these two. *)
Lemma parts_with_extension (d : list string) (st sfx : string) :
  st <> EmptyString -> is_extension sfx = true ->
  PurePath.stem (mkPath d (st +:+ sfx)) = st
  /\ PurePath.suffix (mkPath d (st +:+ sfx)) = sfx.
Proof.
  intros Hst Hext. destruct (is_extension_shape _ Hext) as (Hne & Hr & Hlen).
  unfold PurePath.stem, PurePath.suffix, PurePath.has_suffix. cbn [name].
  rewrite rfind_app, Hr, length_app_str. cbn [Z.leb Z.compare].
  assert (0 < String.length st)%nat by (destruct st; [done|cbn; lia]).
  destruct (Z.ltb_spec 0 (Z.of_nat (String.length st) + 0)); [|lia].
  destruct (Z.ltb_spec (Z.of_nat (String.length st) + 0)
              (Z.of_nat (String.length st + String.length sfx) - 1)); [|lia].
  cbn [andb]. replace (Z.to_nat (Z.of_nat (String.length st) + 0))
    with (String.length st) by lia.
  by rewrite take_app_length, drop_app_length.
Qed.

(** A name whose only dot (if any) is its first character has no
    extension. *)
Lemma parts_without_extension (d : list string) (n : string) :
  rfind "." n <= 0 ->
  PurePath.stem (mkPath d n) = n /\ PurePath.suffix (mkPath d n) = EmptyString.
Proof.
  intros H. unfold PurePath.stem, PurePath.suffix, PurePath.has_suffix. cbn [name].
  destruct (Z.ltb_spec 0 (rfind "." n)); [lia|]. done.
Qed.

(** Every name is its stem followed by its suffix, and the suffix is
    empty or a proper extension after a non-empty stem. *)
Lemma name_parts (path : Path) :
  name path = PurePath.stem path +:+ PurePath.suffix path
  /\ ((PurePath.suffix path = EmptyString /\ PurePath.stem path = name path
       /\ PurePath.has_suffix (name path) = false)
      \/ (is_extension (PurePath.suffix path) = true
          /\ PurePath.stem path <> EmptyString)).
Proof.
  unfold PurePath.stem, PurePath.suffix.
  destruct (PurePath.has_suffix (name path)) eqn:E.
  - split; [by rewrite take_drop|]. right.
    unfold PurePath.has_suffix in E. apply andb_true_iff in E as [E1 E2].
    apply Z.ltb_lt in E1, E2.
    destruct (rfind_cut "." (name path)) as (x & r & Hn & Hlen & Hr); [lia|].
    rewrite <- Hlen in E1, E2 |- *. rewrite Hn in E2 |- *.
    rewrite length_app_str in E2. cbn [String.length] in E2.
    rewrite Nat2Z.id, take_app_length, drop_app_length.
    split.
    + destruct r as [|c r]; [cbn [String.length] in E2; lia|]. exact Hr.
    + destruct x; [cbn in E1; lia|done].
  - split; [by rewrite app_empty_r|]. by left.
Qed.

(** ** The retry ledger on the names it writes *)

Lemma no_underscore_no_marker (s : string) :
  all_chars (fun a => negb (Ascii.eqb a "_")) s = true ->
  contains RETRY_MARK s = false.
Proof.
  induction s as [|c s IH]; [reflexivity|].
  cbn [all_chars]. intros [Hc Hs]%andb_true_iff.
  cbn [contains]. rewrite IH by done. unfold RETRY_MARK.
  rewrite startswith_cons, Ascii.eqb_sym.
  apply negb_true_iff in Hc. by rewrite Hc.
Qed.

Lemma py_str_no_marker (z : Z) : contains RETRY_MARK (py_str z) = false.
Proof.
  apply no_underscore_no_marker.
  eapply all_chars_impl; [|apply py_str_chars].
  intros c Hc. by rewrite numeral_char_differs.
Qed.

Lemma py_str_no_dot (z : Z) :
  all_chars (fun a => negb (Ascii.eqb a ".")) (py_str z) = true.
Proof.
  eapply all_chars_impl; [|apply py_str_chars].
  intros c Hc. by rewrite numeral_char_differs.
Qed.

Lemma marked_no_dot (z : Z) : rfind "." (RETRY_MARK +:+ py_str z) = -1.
Proof.
  apply rfind_absent. rewrite all_chars_app, py_str_no_dot. reflexivity.
Qed.

Lemma retry_name_length (b sfx : string) (k : Z) :
  (7 <= String.length (retry_name b k sfx))%nat.
Proof.
  unfold retry_name. rewrite !length_app_str. cbn [RETRY_MARK String.length]. lia.
Qed.

Lemma retry_name_parts (d : list string) (b sfx : string) (k : Z) :
  readable b sfx ->
  PurePath.stem (mkPath d (retry_name b k sfx)) = b +:+ RETRY_MARK +:+ py_str k
  /\ PurePath.suffix (mkPath d (retry_name b k sfx)) = sfx.
Proof.
  intros [Hext | [-> Hb]]; unfold retry_name.
  - replace (b +:+ RETRY_MARK +:+ py_str k +:+ sfx)
      with ((b +:+ RETRY_MARK +:+ py_str k) +:+ sfx)
      by by rewrite !app_assoc_str.
    apply parts_with_extension; [|done].
    intros E. apply (f_equal String.length) in E.
    rewrite !length_app_str in E. cbn [RETRY_MARK String.length] in E. lia.
  - rewrite app_empty_r. apply parts_without_extension.
    rewrite rfind_app, marked_no_dot. cbn. done.
Qed.

Lemma ledger_reads_retry_name (path : Path) (b : string) (k : Z) :
  contains RETRY_MARK b = false ->
  PurePath.stem path = b +:+ RETRY_MARK +:+ py_str k ->
  get_retry_count path = k /\ base_name path = b /\ fresh path = false.
Proof.
  intros Hb Hst. unfold get_retry_count, base_name, fresh. rewrite Hst.
  rewrite contains_marked, split_last_marker by auto using py_str_no_marker.
  cbn [last_piece List.last first_piece hd negb]. by rewrite py_int_py_str.
Qed.

Lemma ledger_reads_fresh (path : Path) :
  fresh path = true ->
  get_retry_count path = 0 /\ base_name path = PurePath.stem path.
Proof.
  unfold fresh, get_retry_count, base_name. intros H%negb_true_iff.
  rewrite H. split; [done|]. by rewrite split_plain.
Qed.

Lemma base_name_clean (path : Path) : contains RETRY_MARK (base_name path) = false.
Proof.
  unfold base_name. rewrite first_piece_split.
  apply before_clean, RETRY_MARK_nonempty.
Qed.

(** What [increment_retry] returns. *)
Lemma increment_retry_spec (path : Path) :
  name path <> EmptyString ->
  increment_retry path
  = Return (mkPath (dirs path)
              (retry_name (base_name path) (get_retry_count path + 1)
                          (PurePath.suffix path))).
Proof.
  intros Hn. unfold increment_retry, PurePath.with_name.
  destruct (String.eqb_spec (name path) EmptyString) as [|_]; [done|].
  fold (base_name path).
  fold (retry_name (base_name path) (get_retry_count path + 1) (PurePath.suffix path)).
  pose proof (retry_name_length (base_name path) (PurePath.suffix path)
                (get_retry_count path + 1)) as Hlen.
  destruct (String.eqb_spec (retry_name (base_name path) (get_retry_count path + 1)
                               (PurePath.suffix path)) EmptyString) as [E|_].
  { rewrite E in Hlen. cbn in Hlen. lia. }
  destruct (String.eqb_spec (retry_name (base_name path) (get_retry_count path + 1)
                               (PurePath.suffix path)) ".") as [E|_].
  { rewrite E in Hlen. cbn in Hlen. lia. }
  reflexivity.
Qed.

Lemma increment_retry_raises (path : Path) :
  name path = EmptyString -> increment_retry path = Raise ValueError.
Proof.
  intros Hn. unfold increment_retry, PurePath.with_name. by rewrite Hn.
Qed.

Lemma rfind_upper_bound (c : ascii) (s : string) : rfind c s < Z.of_nat (String.length s).
Proof.
  induction s as [|a s IH]; [done|].
  cbn [rfind String.length]. destruct (Z.leb_spec 0 (rfind c s)); [lia|].
  destruct (Ascii.eqb a c); lia.
Qed.

(** A name that does not end in a dot is readable with its own stem
    and suffix. *)
Lemma readable_own_parts (path : Path) :
  endswith_char "." (name path) = false ->
  readable (PurePath.stem path) (PurePath.suffix path).
Proof.
  intros Hend. destruct (name_parts path) as [_ [(Hs & Hst & Hno) | [Hext _]]];
    [right|by left].
  split; [done|]. rewrite Hst.
  unfold PurePath.has_suffix in Hno.
  pose proof (rfind_upper_bound "." (name path)).
  destruct (rfind_endswith "." (name path) Hend) as [Hlast|Hempty].
  - apply andb_false_iff in Hno as [Hno|Hno]; apply Z.ltb_ge in Hno; lia.
  - rewrite Hempty. cbn. lia.
Qed.

(** One more failure of a name the ledger wrote. *)
Lemma increment_retry_retry_name (d : list string) (b sfx : string) (k : Z) :
  contains RETRY_MARK b = false -> readable b sfx ->
  increment_retry (mkPath d (retry_name b k sfx))
  = Return (mkPath d (retry_name b (k + 1) sfx)).
Proof.
  intros Hb Hr.
  destruct (retry_name_parts d b sfx k Hr) as [Hst Hsfx].
  destruct (ledger_reads_retry_name _ b k Hb Hst) as (Hc & Hbase & _).
  rewrite increment_retry_spec.
  - cbn [dirs]. by rewrite Hc, Hbase, Hsfx.
  - cbn [name]. pose proof (retry_name_length b sfx k).
    intros E. rewrite E in H. cbn in H. lia.
Qed.

(** The first failure of a fresh name. *)
Lemma increment_retry_fresh (path : Path) :
  name path <> EmptyString -> fresh path = true ->
  increment_retry path
  = Return (mkPath (dirs path) (retry_name (PurePath.stem path) 1 (PurePath.suffix path))).
Proof.
  intros Hn Hf. destruct (ledger_reads_fresh path Hf) as [Hc Hb].
  rewrite increment_retry_spec by done. by rewrite Hc, Hb.
Qed.

(** The chain of a fresh name, in closed form. *)
Lemma retry_chain_closed_form (path : Path) (n : nat) :
  name path <> EmptyString -> fresh path = true ->
  endswith_char "." (name path) = false ->
  retry_chain (S n) path
  = Return (mkPath (dirs path)
              (retry_name (PurePath.stem path) (Z.of_nat (S n)) (PurePath.suffix path))).
Proof.
  intros Hn Hf Hend. induction n as [|n IH].
  - cbn [retry_chain]. by apply increment_retry_fresh.
  - change (retry_chain (S (S n)) path)
      with (match retry_chain (S n) path with
            | Return p => increment_retry p
            | Raise e => Raise e
            end).
    rewrite IH. rewrite increment_retry_retry_name.
    + do 3 f_equal. lia.
    + by apply negb_true_iff in Hf.
    + by apply readable_own_parts.
Qed.

Lemma retry_chain_add (path : Path) (n m : nat) :
  retry_chain (n + m) path
  = match retry_chain n path with
    | Return q => retry_chain m q
    | Raise e => Raise e
    end.
Proof.
  induction m as [|m IH].
  - rewrite Nat.add_0_r. cbn [retry_chain]. by destruct (retry_chain n path).
  - rewrite Nat.add_succ_r. cbn [retry_chain]. rewrite IH.
    by destruct (retry_chain n path).
Qed.

Lemma retry_chain_reads (path : Path) (n : nat) :
  name path <> EmptyString -> fresh path = true ->
  endswith_char "." (name path) = false ->
  exists q, retry_chain n path = Return q
            /\ get_retry_count q = Z.of_nat n
            /\ base_name q = base_name path.
Proof.
  intros Hn Hf Hend. destruct (ledger_reads_fresh path Hf) as [Hc Hb].
  destruct n as [|n].
  - exists path. by rewrite Hc.
  - rewrite retry_chain_closed_form by done. eexists; split; [done|].
    destruct (retry_name_parts (dirs path) _ _ (Z.of_nat (S n))
                (readable_own_parts path Hend)) as [Hst _].
    apply negb_true_iff in Hf.
    destruct (ledger_reads_retry_name _ _ _ Hf Hst) as (? & ? & _).
    by rewrite Hb.
Qed.

(** ** The controller on the file system *)

Lemma process_file_success (w : World) (path : Path) (data err : string) :
  files w !! path = Some data ->
  process_file (Completed 0 err) path w
  = (Return tt,
     mkWorld (<[PROCESSED_FOLDER // name path := data]> (delete path (files w)))
             (console w ++ [Running; ProcessedTo (PROCESSED_FOLDER // name path)])).
Proof.
  intros H. unfold process_file. cbn [Z.eqb]. run_M. rewrite H.
  cbn [files console]. by rewrite <- app_assoc.
Qed.

Lemma process_file_retry (w : World) (path : Path) (data err : string) (rc : Z) :
  files w !! path = Some data -> name path <> EmptyString ->
  rc <> 0 -> get_retry_count path < MAX_RETRIES ->
  let new_name := retry_name (base_name path) (get_retry_count path + 1)
                             (PurePath.suffix path) in
  process_file (Completed rc err) path w
  = (Return tt,
     mkWorld (<[RETRY_FOLDER // new_name := data]> (delete path (files w)))
             (console w ++ [Running; ProcessingFailed (get_retry_count path + 1);
                            Stderr err; MovedToRetry (RETRY_FOLDER // new_name)])).
Proof.
  intros H Hn Hrc Hlt new_name. unfold process_file.
  destruct (Z.eqb_spec rc 0); [done|].
  destruct (Z.ltb_spec (get_retry_count path) MAX_RETRIES); [|lia].
  rewrite increment_retry_spec by done. run_M. cbn [name]. rewrite H.
  cbn [files console]. by rewrite <- !app_assoc.
Qed.

Lemma process_file_stuck (w : World) (path : Path) (err : string) (rc : Z) :
  rc <> 0 -> MAX_RETRIES <= get_retry_count path ->
  process_file (Completed rc err) path w
  = (Return tt,
     mkWorld (files w)
             (console w ++ [Running; ProcessingFailed (get_retry_count path + 1);
                            Stderr err; MaxRetriesReached (name path)])).
Proof.
  intros Hrc Hge. unfold process_file.
  destruct (Z.eqb_spec rc 0); [done|].
  destruct (Z.ltb_spec (get_retry_count path) MAX_RETRIES); [lia|].
  run_M. cbn [files console]. by rewrite <- !app_assoc.
Qed.

Lemma process_file_raises (w : World) (path : Path) (e : exn) :
  process_file (RunRaises e) path w
  = (Raise e, mkWorld (files w) (console w ++ [Running])).
Proof. reflexivity. Qed.

(** *** The lock *)

Lemma with_suffix_lock (path : Path) :
  name path <> EmptyString ->
  PurePath.with_suffix path (PurePath.suffix path +:+ LOCK_SUFFIX)
  = Return (lock_path path).
Proof.
  intros Hn. unfold PurePath.with_suffix, lock_path.
  destruct (name_parts path) as [Hname Hcases].
  assert (startswith "." (PurePath.suffix path +:+ LOCK_SUFFIX) = true
          /\ PurePath.suffix path +:+ LOCK_SUFFIX <> "."%string) as [Hdot Hne].
  { destruct Hcases as [(-> & _ & _) | [Hext _]]; [by split|].
    destruct (PurePath.suffix path) as [|d r]; [done|].
    assert (d = "."%char) as ->.
    { destruct (Ascii.eqb_spec d ".") as [->|Hd]; [done|].
      exfalso. revert Hext Hd. cbn.
      destruct d as [[] [] [] [] [] [] [] []]; destruct r; done. }
    destruct r as [|c r]; [discriminate Hext|].
    rewrite !app_cons. by split. }
  rewrite Hdot. cbn [negb orb].
  destruct (String.eqb_spec (PurePath.suffix path +:+ LOCK_SUFFIX) "."); [done|].
  destruct (String.eqb_spec (name path) EmptyString); [done|].
  do 2 f_equal.
  remember (PurePath.stem path) as st eqn:Est.
  remember (PurePath.suffix path) as sfx eqn:Esfx.
  rewrite Hname, length_app_str.
  replace (String.length st + String.length sfx - String.length sfx)%nat
    with (String.length st) by lia.
  by rewrite take_app_length, app_assoc_str.
Qed.

Lemma release_absent (lock_file : Path) (w : World) :
  files w !! lock_file = None -> release lock_file w = (Return tt, w).
Proof.
  intros H. unfold release. run_M. rewrite H.
  rewrite bool_decide_eq_false_2 by (by intros [? ?]). done.
Qed.

Lemma release_present (lock_file : Path) (w : World) (data : string) :
  files w !! lock_file = Some data ->
  release lock_file w
  = (Return tt, mkWorld (delete lock_file (files w)) (console w)).
Proof.
  intros H. unfold release. run_M. rewrite H.
  rewrite bool_decide_eq_true_2 by eauto. by rewrite H.
Qed.

(** After [release] the marker is gone, whatever the world was. *)
Lemma release_spec (lock_file : Path) (w : World) :
  release lock_file w
  = (Return tt, mkWorld (delete lock_file (files w)) (console w)).
Proof.
  destruct (files w !! lock_file) as [data|] eqn:E.
  - by apply release_present with data.
  - rewrite release_absent by done. destruct w as [f c]. cbn in *.
    by rewrite delete_id.
Qed.

Lemma acquire_free (lock_file : Path) (w : World) :
  files w !! lock_file = None ->
  acquire lock_file w
  = (Return tt, mkWorld (<[lock_file := EmptyString]> (files w)) (console w)).
Proof. intros H. unfold acquire. run_M. by rewrite H. Qed.

Lemma acquire_held (lock_file : Path) (w : World) :
  is_Some (files w !! lock_file) ->
  acquire lock_file w = (Raise RuntimeError, w).
Proof. intros [data H]. unfold acquire. run_M. by rewrite H. Qed.

(** [with file_lock(path): body] when the marker is free. *)
Lemma file_lock_free {A} (path : Path) (body : M A) (w : World) :
  name path <> EmptyString ->
  files w !! lock_path path = None ->
  file_lock path body w
  = let locked := mkWorld (<[lock_path path := EmptyString]> (files w)) (console w) in
    (fst (body locked),
     mkWorld (delete (lock_path path) (files (snd (body locked))))
             (console (snd (body locked)))).
Proof.
  intros Hn Hfree. unfold file_lock.
  rewrite with_suffix_lock by done.
  unfold bind at 1. unfold lift. unfold bind. rewrite acquire_free by done.
  unfold try_finally. cbn zeta.
  destruct (body _) as [r w']. by rewrite release_spec.
Qed.

Lemma file_lock_held {A} (path : Path) (body : M A) (w : World) :
  name path <> EmptyString ->
  is_Some (files w !! lock_path path) ->
  file_lock path body w = (Raise RuntimeError, w).
Proof.
  intros Hn Hheld. unfold file_lock.
  rewrite with_suffix_lock by done.
  unfold bind at 1. unfold lift. unfold bind. by rewrite acquire_held.
Qed.

(** *** The stability probe *)

Section Probe.

(** The reads of one probe, and the sizes they give while they
    succeed. *)
Variable st_size : nat -> result N.
Variable sizes : nat -> N.

Lemma stable_loop_changing (k todo i : nat) :
  (forall j, (i <= j < i + k)%nat ->
             st_size j = Return (sizes j)
             /\ Z.of_N (sizes j) <> size_before sizes j) ->
  stable_loop st_size (k + todo) i (size_before sizes i)
  = stable_loop st_size todo (i + k) (size_before sizes (i + k)).
Proof.
  revert i; induction k as [|k IH]; intros i H.
  - by rewrite Nat.add_0_r.
  - cbn [Nat.add stable_loop].
    destruct (H i ltac:(lia)) as [-> Hne].
    destruct (Z.eqb_spec (Z.of_N (sizes i)) (size_before sizes i)); [done|].
    change (Z.of_N (sizes i)) with (size_before sizes (S i)).
    rewrite IH by (intros j Hj; apply H; lia).
    by replace (S i + k)%nat with (i + S k)%nat by lia.
Qed.

(** A run of reads that succeed, each size differing from the one
    before. *)
Lemma changing_reads (k : nat) :
  (forall j, (j < k)%nat -> st_size j = Return (sizes j)) ->
  (forall j, (S j < k)%nat -> sizes (S j) <> sizes j) ->
  forall j, (0 <= j < 0 + k)%nat ->
            st_size j = Return (sizes j)
            /\ Z.of_N (sizes j) <> size_before sizes j.
Proof.
  intros Hok Hdiff j Hj. split; [apply Hok; lia|].
  destruct j as [|j]; cbn [size_before]; [lia|].
  intros E. apply (Hdiff j); [lia|]. lia.
Qed.

Lemma wait_returns_true (timeout : Z) (i : nat) :
  (forall j, (j <= S i)%nat -> st_size j = Return (sizes j)) ->
  (forall j, (j < i)%nat -> sizes (S j) <> sizes j) ->
  sizes (S i) = sizes i ->
  (S i < Z.to_nat timeout)%nat ->
  wait_until_file_stable st_size timeout = (Return true, S (S i)).
Proof.
  intros Hok Hdiff Heq Hlt. unfold wait_until_file_stable.
  replace (Z.to_nat timeout) with (S i + S (Z.to_nat timeout - S (S i)))%nat by lia.
  change (-1) with (size_before sizes 0).
  rewrite stable_loop_changing.
  - cbn [Nat.add stable_loop size_before]. rewrite Hok by lia.
    rewrite Heq, Z.eqb_refl. done.
  - apply changing_reads; intros j Hj; [apply Hok; lia|apply Hdiff; lia].
Qed.

Lemma wait_returns_false (timeout : Z) :
  (forall j, (j < Z.to_nat timeout)%nat -> st_size j = Return (sizes j)) ->
  (forall j, (S j < Z.to_nat timeout)%nat -> sizes (S j) <> sizes j) ->
  wait_until_file_stable st_size timeout = (Return false, Z.to_nat timeout).
Proof.
  intros Hok Hdiff. unfold wait_until_file_stable.
  rewrite <- (Nat.add_0_r (Z.to_nat timeout)) at 1.
  change (-1) with (size_before sizes 0).
  rewrite stable_loop_changing; [done|].
  by apply changing_reads.
Qed.

Lemma wait_raises (timeout : Z) (i : nat) (e : exn) :
  (forall j, (j < i)%nat -> st_size j = Return (sizes j)) ->
  (forall j, (S j < i)%nat -> sizes (S j) <> sizes j) ->
  st_size i = Raise e ->
  (i < Z.to_nat timeout)%nat ->
  wait_until_file_stable st_size timeout = (Raise e, S i).
Proof.
  intros Hok Hdiff He Hlt. unfold wait_until_file_stable.
  replace (Z.to_nat timeout) with (i + S (Z.to_nat timeout - S i))%nat by lia.
  change (-1) with (size_before sizes 0).
  rewrite stable_loop_changing by by apply changing_reads.
  cbn [Nat.add stable_loop]. by rewrite He.
Qed.

End Probe.

(** The count of reads never exceeds the number of iterations, and a
    confirmation needs a read after the first. *)
Lemma stable_loop_reads (st_size : nat -> result N) (todo i : nat) (last : Z) :
  (i <= snd (stable_loop st_size todo i last) <= i + todo)%nat.
Proof.
  revert i last; induction todo as [|todo IH]; intros i last; cbn [stable_loop].
  - cbn. lia.
  - destruct (st_size i) as [sz|e]; [|cbn; lia].
    destruct (Z.of_N sz =? last); [cbn; lia|].
    specialize (IH (S i) (Z.of_N sz)). lia.
Qed.

Lemma stable_loop_true (st_size : nat -> result N) (todo i : nat) (last : Z) :
  last < 0 ->
  fst (stable_loop st_size todo i last) = Return true ->
  (i + 2 <= snd (stable_loop st_size todo i last))%nat.
Proof.
  intros Hlast. destruct todo as [|todo]; cbn [stable_loop fst snd]; [done|].
  destruct (st_size i) as [sz|e]; cbn [fst snd]; [|done].
  destruct (Z.eqb_spec (Z.of_N sz) last); [lia|].
  destruct todo as [|todo]; cbn [stable_loop fst snd]; [done|].
  destruct (st_size (S i)) as [sz'|e]; cbn [fst snd]; [|done].
  destruct (Z.of_N sz' =? Z.of_N sz); cbn [fst snd]; [lia|]. intros _.
  pose proof (stable_loop_reads st_size todo (S (S i)) (Z.of_N sz')). lia.
Qed.

(** *** Events *)

Lemma image_file_parts (path : Path) :
  is_image_file path = true ->
  is_extension (PurePath.suffix path) = true
  /\ name path <> EmptyString
  /\ readable (base_name path) (PurePath.suffix path).
Proof.
  unfold is_image_file. intros H%bool_decide_eq_true.
  destruct (name_parts path) as [Hname [(Hs & _ & _) | [Hext Hst]]].
  - rewrite Hs in H. cbn in H. unfold SUPPORTED_EXTENSIONS in H.
    repeat (apply elem_of_cons in H as [H|H]; [discriminate H|]).
    by apply elem_of_nil in H.
  - split_and!; [done| |by left].
    rewrite Hname. intros E. apply (f_equal String.length) in E.
    rewrite length_app_str in E.
    destruct (is_extension_shape _ Hext) as (_ & _ & ?). cbn in E. lia.
Qed.

Lemma lock_name_differs (n : string) : n +:+ LOCK_SUFFIX <> n.
Proof.
  intros E. apply (f_equal String.length) in E.
  rewrite length_app_str in E. cbn in E. lia.
Qed.

Lemma lock_path_differs (path q : Path) : name q = name path -> lock_path path <> q.
Proof.
  intros Hq E. apply (f_equal name) in E. cbn [lock_path name] in E.
  rewrite Hq in E. by apply lock_name_differs in E.
Qed.

Lemma internal_processed (n : string) : in_internal_folder (PROCESSED_FOLDER // n) = true.
Proof. vm_compute. reflexivity. Qed.

Lemma internal_retry (n : string) : in_internal_folder (RETRY_FOLDER // n) = true.
Proof. vm_compute. reflexivity. Qed.

Lemma outside_internal (path : Path) (n : string) :
  in_internal_folder path = false ->
  path <> PROCESSED_FOLDER // n /\ path <> RETRY_FOLDER // n
  /\ lock_path path <> PROCESSED_FOLDER // n /\ lock_path path <> RETRY_FOLDER // n.
Proof.
  intros H. destruct path as [d nm].
  split_and!; intros E; injection E as Hd _; subst d;
    vm_compute in H; discriminate H.
Qed.

Lemma unlock_after_move (m : gmap Path string) (lock src dst : Path) (data : string) :
  m !! lock = None -> lock <> dst ->
  delete lock (<[dst := data]> (delete src (<[lock := EmptyString]> m)))
  = <[dst := data]> (delete src m).
Proof.
  intros Hfree Hne.
  rewrite delete_insert_ne by done.
  rewrite delete_delete. by rewrite delete_insert_id.
Qed.

Lemma reaches_lock_inv (env : Env) (event : Event) :
  reaches_lock env event = true ->
  is_directory event = false
  /\ in_internal_folder (src_path event) = false
  /\ is_image_file (src_path event) = true
  /\ fst (wait_until_file_stable (env_st_size env) 10) = Return true.
Proof.
  unfold reaches_lock. rewrite !andb_true_iff, !negb_true_iff.
  intros [[[? ?] ?] Hw].
  split_and!; try done.
  destruct (fst _) as [[|]|]; done.
Qed.

Lemma reaches_extraction_inv (env : Env) (event : Event) (w : World) :
  reaches_extraction env event w = true ->
  is_directory event = false
  /\ in_internal_folder (src_path event) = false
  /\ is_image_file (src_path event) = true
  /\ fst (wait_until_file_stable (env_st_size env) 10) = Return true
  /\ files w !! lock_path (src_path event) = None.
Proof.
  unfold reaches_extraction. rewrite andb_true_iff.
  intros [(? & ? & ? & ?)%reaches_lock_inv ?%bool_decide_eq_true]. done.
Qed.

(** An event that reaches the extraction: the file is processed under
    the lock, the marker is deleted afterwards, and an exception of the
    protected region is printed if it is an [Exception]. *)
Lemma on_created_extracting (env : Env) (event : Event) (w : World) :
  reaches_extraction env event w = true ->
  let path := src_path event in
  let locked := mkWorld (<[lock_path path := EmptyString]> (files w))
                        (console w ++ [NewLabel (name path)]) in
  let out := process_file (env_run env) path locked in
  on_created env event w
  = match fst out with
    | Return a =>
        (Return a, mkWorld (delete (lock_path path) (files (snd out))) (console (snd out)))
    | Raise e =>
        match handler_message path e with
        | Some msg =>
            (Return tt, mkWorld (delete (lock_path path) (files (snd out)))
                                (console (snd out) ++ [msg]))
        | None =>
            (Raise e, mkWorld (delete (lock_path path) (files (snd out))) (console (snd out)))
        end
    end.
Proof.
  intros (Hdir & Hint & Himg & Hst & Hfree)%reaches_extraction_inv. cbn zeta.
  destruct (image_file_parts _ Himg) as (_ & Hn & _).
  unfold on_created. rewrite Hdir, Hint, Himg. cbn [negb].
  unfold bind at 1. unfold print at 1. unfold bind at 1. unfold lift.
  rewrite Hst. cbn [negb]. unfold try_except.
  rewrite file_lock_free by done. cbn [files console]. cbn zeta.
  destruct (fst (process_file _ _ _)) as [a|e]; [done|].
  unfold handler_message.
  destruct (is_RuntimeError e); [done|]. by destruct (is_Exception e).
Qed.

Lemma on_created_ignored (env : Env) (event : Event) (w : World) :
  is_directory event = true \/ in_internal_folder (src_path event) = true
  \/ is_image_file (src_path event) = false ->
  on_created env event w = (Return tt, w).
Proof.
  unfold on_created. intros [-> | [H | H]]; [done| |].
  - destruct (is_directory event); [done|]. by rewrite H.
  - destruct (is_directory event); [done|].
    destruct (in_internal_folder _); [done|]. by rewrite H.
Qed.

(** An event of a supported file outside the internal folders, up to
    the end of the probe. *)
Lemma on_created_probed (env : Env) (event : Event) (w : World) :
  is_directory event = false ->
  in_internal_folder (src_path event) = false ->
  is_image_file (src_path event) = true ->
  let path := src_path event in
  let seen := mkWorld (files w) (console w ++ [NewLabel (name path)]) in
  on_created env event w
  = match fst (wait_until_file_stable (env_st_size env) 10) with
    | Raise e => (Raise e, seen)
    | Return false =>
        (Return tt, mkWorld (files w) (console w ++ [NewLabel (name path); NotStable (name path)]))
    | Return true =>
        try_except (file_lock path (process_file (env_run env) path))
          (fun e =>
             if is_RuntimeError e then print (FileLocked (name path))
             else if is_Exception e then print (UnexpectedError e)
             else raise e) seen
    end.
Proof.
  intros Hdir Hint Himg. cbn zeta.
  unfold on_created. rewrite Hdir, Hint, Himg. cbn [negb].
  unfold bind at 1. unfold print at 1. unfold bind at 1. unfold lift.
  destruct (fst _) as [[|]|e]; cbn [negb]; try done.
  unfold print. cbn [files console]. by rewrite <- app_assoc.
Qed.

(** ** The payload of the last marker *)











(** ** The chain of retry names *)

(** C4 (as amended).  For a fresh, non-empty name that does not end in a
    dot, [n] applications of [increment_retry] succeed and give a name
    whose retry count is [n] and whose base stem is that of the first
    name; later names of the chain have larger counts, and the chain
    continued from any of its names is the rest of the same chain. *)
Theorem retry_chain_counts (path : Path) (n : nat) :
  name path <> EmptyString ->
  fresh path = true ->
  endswith_char "." (name path) = false ->
  exists q,
    retry_chain n path = Return q
    /\ get_retry_count q = Z.of_nat n
    /\ base_name q = base_name path
    /\ (forall m q', (n < m)%nat -> retry_chain m path = Return q' ->
                     get_retry_count q < get_retry_count q')
    /\ (forall m, retry_chain (n + m) path = retry_chain m q).
Proof.
  intros Hn Hf Hend.
  destruct (retry_chain_reads path n Hn Hf Hend) as (q & Hq & Hc & Hb).
  exists q. split_and!; try done.
  - intros m q' Hlt Hq'.
    destruct (retry_chain_reads path m Hn Hf Hend) as (q'' & Hq'' & Hc' & _).
    rewrite Hq' in Hq''. injection Hq'' as <-. lia.
  - intros m. by rewrite retry_chain_add, Hq.
Qed.

(** C4 at [x.jpg], three failures. *)
Lemma retry_chain_counts_witness :
  exists q,
    retry_chain 3 (WATCH_FOLDER // "x.jpg") = Return q
    /\ get_retry_count q = 3
    /\ base_name q = base_name (WATCH_FOLDER // "x.jpg")
    /\ (forall m q', (3 < m)%nat ->
                     retry_chain m (WATCH_FOLDER // "x.jpg") = Return q' ->
                     get_retry_count q < get_retry_count q')
    /\ (forall m, retry_chain (3 + m) (WATCH_FOLDER // "x.jpg") = retry_chain m q).
Proof.
  apply (retry_chain_counts (WATCH_FOLDER // "x.jpg") 3);
    [discriminate | reflexivity | reflexivity].
Defined.

(** C4 fails as stated: the fresh name [a.] ends in a dot, pathlib gives
    it no suffix, and the marker written after the dot is then read as
    a suffix: after one application the count is still 0 and the base
    stem has changed. *)
Lemma retry_chain_trailing_dot :
  fresh (WATCH_FOLDER // "a.") = true
  /\ retry_chain 1 (WATCH_FOLDER // "a.") = Return (WATCH_FOLDER // "a.__retry1")
  /\ get_retry_count (WATCH_FOLDER // "a.__retry1") = 0
  /\ base_name (WATCH_FOLDER // "a.__retry1") <> base_name (WATCH_FOLDER // "a.")
  /\ ~ (forall path n,
          name path <> EmptyString -> fresh path = true ->
          exists q, retry_chain n path = Return q
                    /\ get_retry_count q = Z.of_nat n
                    /\ base_name q = base_name path).
Proof.
  split_and!; try reflexivity.
  - vm_compute. discriminate.
  - intros H.
    destruct (H (WATCH_FOLDER // "a.") 1%nat) as (q & Hq & Hc & _);
      [discriminate | reflexivity |].
    vm_compute in Hq. injection Hq as <-. vm_compute in Hc. discriminate Hc.
Qed.

(** ** The outcomes of an extraction *)

(** The ledger on the next retry name of a supported file. *)
Lemma next_retry_name_reads (path : Path) (folder : Path) :
  is_image_file path = true ->
  let new_path := folder // retry_name (base_name path) (get_retry_count path + 1)
                                       (PurePath.suffix path) in
  get_retry_count new_path = get_retry_count path + 1
  /\ base_name new_path = base_name path
  /\ PurePath.suffix new_path = PurePath.suffix path.
Proof.
  intros Himg new_path.
  destruct (image_file_parts _ Himg) as (_ & _ & Hr).
  destruct (retry_name_parts (dirs new_path) _ _ (get_retry_count path + 1) Hr)
    as [Hst Hsfx].
  destruct (ledger_reads_retry_name new_path _ _ (base_name_clean path) Hst)
    as (? & ? & _).
  done.
Qed.

(** A failed extraction below [MAX_RETRIES], seen from [on_created]. *)
Lemma on_created_retry (env : Env) (event : Event) (w : World)
      (data err : string) (rc : Z) :
  reaches_extraction env event w = true ->
  env_run env = Completed rc err ->
  rc <> 0 ->
  files w !! src_path event = Some data ->
  get_retry_count (src_path event) < MAX_RETRIES ->
  let path := src_path event in
  let new_path := RETRY_FOLDER // retry_name (base_name path) (get_retry_count path + 1)
                                             (PurePath.suffix path) in
  on_created env event w
  = (Return tt,
     mkWorld (<[new_path := data]> (delete path (files w)))
             (console w ++ [NewLabel (name path); Running;
                            ProcessingFailed (get_retry_count path + 1);
                            Stderr err; MovedToRetry new_path])).
Proof.
  intros Hreach Hrun Hrc Hfile Hlt path new_path.
  pose proof Hreach as (_ & Hint & Himg & _ & Hfree)%reaches_extraction_inv.
  destruct (image_file_parts _ Himg) as (_ & Hn & _).
  destruct (outside_internal _ (name new_path) Hint) as (_ & _ & _ & Hlock).
  rewrite on_created_extracting by done. rewrite Hrun.
  rewrite (process_file_retry _ _ data) by
    first [done
          | cbn [files]; rewrite lookup_insert_ne;
            [done | by apply lock_path_differs]].
  cbn [fst snd files console].
  rewrite unlock_after_move by done. by rewrite <- app_assoc.
Qed.

(** The only file of the world fails its extraction. *)
Lemma single_file_failure (n next data : string) (w : World) :
  files w = {[ WATCH_FOLDER // n := data ]} ->
  reaches_lock extraction_fails (created n) = true ->
  get_retry_count (WATCH_FOLDER // n) < MAX_RETRIES ->
  increment_retry (WATCH_FOLDER // n) = Return (WATCH_FOLDER // next) ->
  files (handled extraction_fails n w) = {[ RETRY_FOLDER // next := data ]}.
Proof.
  intros Hw Hreach Hlt Hnext. unfold handled.
  pose proof Hreach as (_ & _ & Himg & _)%reaches_lock_inv.
  destruct (image_file_parts _ Himg) as (_ & Hn & _).
  rewrite increment_retry_spec in Hnext by done. injection Hnext as Hnext.
  rewrite (on_created_retry _ _ _ data "no expiry date found" 1); try done.
  - cbn [snd files src_path created]. rewrite Hnext, Hw.
    by rewrite delete_singleton_eq, insert_empty.
  - unfold reaches_extraction. rewrite Hreach. cbn [andb].
    apply bool_decide_eq_true. rewrite Hw. apply lookup_singleton_ne.
    intros E. symmetry in E. by apply lock_path_differs in E.
  - cbn [src_path created]. rewrite Hw. apply lookup_singleton_eq.
Qed.

Lemma redrop_single (n data : string) (w : World) :
  files w = {[ RETRY_FOLDER // n := data ]} ->
  files (redrop n w) = {[ WATCH_FOLDER // n := data ]}.
Proof.
  intros Hw. unfold redrop. rewrite Hw, lookup_singleton_eq. cbn [files].
  by rewrite delete_singleton_eq, insert_empty.
Qed.

(** C3.  An event that reaches the extraction of a file whose retry
    count is below [MAX_RETRIES], when the extraction fails: the file is
    moved into the retry folder under the name [increment_retry] gives,
    whose retry count is one more and whose base stem is the same; the
    marker is gone.  Three failures of the fresh [x.jpg], the file being
    dropped back into the watched folder in between, give
    [x__retry1.jpg], [x__retry2.jpg] and [x__retry3.jpg], each in the
    retry folder. *)
Theorem retry_scheduled (env : Env) (event : Event) (w : World)
        (data err : string) (rc : Z) :
  reaches_extraction env event w = true ->
  env_run env = Completed rc err ->
  rc <> 0 ->
  files w !! src_path event = Some data ->
  get_retry_count (src_path event) < MAX_RETRIES ->
  let path := src_path event in
  let new_path := RETRY_FOLDER // retry_name (base_name path) (get_retry_count path + 1)
                                             (PurePath.suffix path) in
  (increment_retry path = Return (mkPath (dirs path) (name new_path))
   /\ on_created env event w
      = (Return tt,
         mkWorld (<[new_path := data]> (delete path (files w)))
                 (console w ++ [NewLabel (name path); Running;
                                ProcessingFailed (get_retry_count path + 1);
                                Stderr err; MovedToRetry new_path]))
   /\ get_retry_count new_path = get_retry_count path + 1
   /\ base_name new_path = base_name path
   /\ path <> new_path)
  /\ (let w1 := handled extraction_fails "x.jpg" (one_label "x.jpg") in
      let w2 := handled extraction_fails "x__retry1.jpg" (redrop "x__retry1.jpg" w1) in
      let w3 := handled extraction_fails "x__retry2.jpg" (redrop "x__retry2.jpg" w2) in
      files w1 = {[ RETRY_FOLDER // "x__retry1.jpg" := "image bytes"%string ]}
      /\ files w2 = {[ RETRY_FOLDER // "x__retry2.jpg" := "image bytes"%string ]}
      /\ files w3 = {[ RETRY_FOLDER // "x__retry3.jpg" := "image bytes"%string ]}).
Proof.
  intros Hreach Hrun Hrc Hfile Hlt path new_path. split.
  - pose proof Hreach as (_ & Hint & Himg & _ & _)%reaches_extraction_inv.
    destruct (image_file_parts _ Himg) as (_ & Hn & _).
    destruct (outside_internal _ (name new_path) Hint) as (_ & Hne & _ & _).
    destruct (next_retry_name_reads path RETRY_FOLDER Himg) as (Hc & Hb & _).
    split_and!; try done.
    + by rewrite increment_retry_spec.
    + by apply (on_created_retry env event w data err rc).
  - intros w1 w2 w3.
    assert (files w1 = {[ RETRY_FOLDER // "x__retry1.jpg" := "image bytes"%string ]}) as H1
      by (by apply single_file_failure).
    assert (files w2 = {[ RETRY_FOLDER // "x__retry2.jpg" := "image bytes"%string ]}) as H2
      by (apply single_file_failure; [by apply redrop_single|done..]).
    assert (files w3 = {[ RETRY_FOLDER // "x__retry3.jpg" := "image bytes"%string ]}) as H3
      by (apply single_file_failure; [by apply redrop_single|done..]).
    exact (conj H1 (conj H2 H3)).
Qed.

(** C3 at the first failure of [x.jpg]. *)
Lemma retry_scheduled_witness :
  reaches_extraction extraction_fails (created "x.jpg") (one_label "x.jpg") = true
  /\ files (handled extraction_fails "x.jpg" (one_label "x.jpg"))
       !! (RETRY_FOLDER // "x__retry1.jpg") = Some "image bytes"%string
  /\ get_retry_count (RETRY_FOLDER // "x__retry1.jpg") = 1.
Proof.
  split; [reflexivity|].
  destruct (retry_scheduled extraction_fails (created "x.jpg") (one_label "x.jpg")
              "image bytes" "no expiry date found" 1
              eq_refl eq_refl ltac:(discriminate) eq_refl eq_refl)
    as [(_ & Hrun & Hcount & _) _].
  split; [|exact Hcount].
  unfold handled. rewrite Hrun. apply lookup_insert_eq.
Defined.

(** C1.  An event that reaches the extraction of a file whose retry
    count has reached [MAX_RETRIES], when the extraction fails: no file
    is renamed or moved, the marker is gone, and the message of the
    exhausted retries is printed.  The file is therefore where the
    event found it, which is outside the retry folder. *)
Theorem stuck_file_stays_put (env : Env) (event : Event) (w : World)
        (err : string) (rc : Z) :
  reaches_extraction env event w = true ->
  env_run env = Completed rc err ->
  rc <> 0 ->
  MAX_RETRIES <= get_retry_count (src_path event) ->
  let path := src_path event in
  on_created env event w
  = (Return tt,
     mkWorld (files w)
             (console w ++ [NewLabel (name path); Running;
                            ProcessingFailed (get_retry_count path + 1);
                            Stderr err; MaxRetriesReached (name path)]))
  /\ (RETRY_FOLDER ∉ PurePath.parents path)
  /\ path <> RETRY_FOLDER // name path.
Proof.
  intros Hreach Hrun Hrc Hge path.
  pose proof Hreach as (_ & Hint & _ & _ & Hfree)%reaches_extraction_inv.
  destruct (outside_internal _ (name path) Hint) as (_ & Hne & _ & _).
  split_and!; [| |done].
  - rewrite on_created_extracting by done. rewrite Hrun.
    rewrite process_file_stuck by done. cbn [fst snd files console].
    rewrite delete_insert_id by done. by rewrite <- app_assoc.
  - unfold in_internal_folder in Hint. cbn [existsb] in Hint.
    apply orb_false_iff in Hint as [_ Hint].
    apply orb_false_iff in Hint as [Hint _].
    by apply bool_decide_eq_false in Hint.
Qed.

(** C1 at the failing input: the fourth failure of [x__retry3.jpg],
    dropped back into the watched folder.  The file stays in the
    watched folder; the retry folder does not hold it. *)
Lemma stuck_file_stays_put_witness :
  let w := one_label "x__retry3.jpg" in
  let w' := handled extraction_fails "x__retry3.jpg" w in
  get_retry_count (WATCH_FOLDER // "x__retry3.jpg") = 3
  /\ files w' !! (WATCH_FOLDER // "x__retry3.jpg") = Some "image bytes"%string
  /\ files w' !! (RETRY_FOLDER // "x__retry3.jpg") = None
  /\ List.last (console w') Running = MaxRetriesReached "x__retry3.jpg".
Proof.
  intros w w'.
  destruct (stuck_file_stays_put extraction_fails (created "x__retry3.jpg") w
              "no expiry date found" 1
              eq_refl eq_refl ltac:(discriminate) ltac:(discriminate))
    as (Hrun & _ & _).
  subst w'. unfold handled. rewrite Hrun. by split_and!.
Defined.

(** C7.  An event that reaches the extraction, when the collaborator
    ends with return code 0: the file is moved into the processed
    folder under its own name and the marker is gone.  The outcome is
    terminal: a later event of the file in the processed folder changes
    nothing, whatever the environment. *)
Theorem processed_on_success (env : Env) (event : Event) (w : World)
        (data err : string) :
  reaches_extraction env event w = true ->
  env_run env = Completed 0 err ->
  files w !! src_path event = Some data ->
  let path := src_path event in
  let destination := PROCESSED_FOLDER // name path in
  on_created env event w
  = (Return tt,
     mkWorld (<[destination := data]> (delete path (files w)))
             (console w ++ [NewLabel (name path); Running; ProcessedTo destination]))
  /\ name destination = name path
  /\ path <> destination
  /\ (forall env' directory w',
        on_created env' (mkEvent directory destination) w' = (Return tt, w')).
Proof.
  intros Hreach Hrun Hfile path destination.
  pose proof Hreach as (_ & Hint & _ & _ & Hfree)%reaches_extraction_inv.
  destruct (outside_internal _ (name path) Hint) as (Hne & _ & Hlock & _).
  split_and!; try done.
  - rewrite on_created_extracting by done. rewrite Hrun.
    rewrite (process_file_success _ _ data) by
      (cbn [files]; rewrite lookup_insert_ne; [done|]; by apply lock_path_differs).
    cbn [fst snd files console].
    rewrite unlock_after_move by done. by rewrite <- app_assoc.
  - intros env' directory w'. apply on_created_ignored. right. left.
    apply internal_processed.
Qed.

(** C7 at [x.jpg]. *)
Lemma processed_on_success_witness :
  files (handled extraction_succeeds "x.jpg" (one_label "x.jpg"))
  = {[ PROCESSED_FOLDER // "x.jpg" := "image bytes"%string ]}.
Proof.
  destruct (processed_on_success extraction_succeeds (created "x.jpg")
              (one_label "x.jpg") "image bytes" "" eq_refl eq_refl eq_refl)
    as (Hrun & _).
  unfold handled. rewrite Hrun. cbn [snd files src_path created one_label].
  by rewrite delete_singleton_eq, insert_empty.
Defined.

(** C5.  When the marker of the file exists, taking the lock raises
    [RuntimeError] ("File is already locked") and changes nothing, so
    the protected region is not entered; an event that reaches the lock
    then only prints that the file is locked and returns.  Once the
    marker is released the lock can be taken again. *)
Theorem already_locked_is_skipped (env : Env) (event : Event) (w : World)
        (marker : string) :
  reaches_lock env event = true ->
  files w !! lock_path (src_path event) = Some marker ->
  let path := src_path event in
  acquire (lock_path path) w = (Raise RuntimeError, w)
  /\ (forall body : M unit, file_lock path body w = (Raise RuntimeError, w))
  /\ on_created env event w
     = (Return tt,
        mkWorld (files w) (console w ++ [NewLabel (name path); FileLocked (name path)]))
  /\ (let w' := snd (release (lock_path path) w) in
      fst (release (lock_path path) w) = Return tt
      /\ acquire (lock_path path) w'
         = (Return tt, mkWorld (<[lock_path path := EmptyString]> (files w')) (console w'))
      /\ reaches_extraction env event w' = true).
Proof.
  intros Hreach Hheld path.
  pose proof Hreach as (Hdir & Hint & Himg & Hst)%reaches_lock_inv.
  destruct (image_file_parts _ Himg) as (_ & Hn & _).
  split_and!.
  - apply acquire_held. eauto.
  - intros body. apply file_lock_held; eauto.
  - rewrite on_created_probed by done. rewrite Hst.
    unfold try_except. rewrite file_lock_held by eauto.
    cbn [is_RuntimeError]. unfold print. cbn [files console].
    by rewrite <- app_assoc.
  - cbn zeta. rewrite release_spec. cbn [fst snd files console]. split_and!.
    + reflexivity.
    + rewrite acquire_free; [reflexivity|]. cbn [files]. apply lookup_delete_eq.
    + unfold reaches_extraction. rewrite Hreach. cbn [files andb].
      apply bool_decide_eq_true. apply lookup_delete_eq.
Qed.

(** C5 at [x.jpg] with a marker left behind. *)
Lemma already_locked_is_skipped_witness :
  let w := mkWorld (<[WATCH_FOLDER // "x.jpg.lock" := EmptyString]>
                      (files (one_label "x.jpg"))) [] in
  on_created extraction_succeeds (created "x.jpg") w
  = (Return tt, mkWorld (files w) [NewLabel "x.jpg"; FileLocked "x.jpg"]).
Proof.
  intros w.
  destruct (already_locked_is_skipped extraction_succeeds (created "x.jpg") w
              EmptyString eq_refl eq_refl) as (_ & _ & Hrun & _).
  exact Hrun.
Defined.

(** C6.  Once the lock of a path is taken, the marker is gone after the
    protected region whatever it did: for every body, whether it
    returns or raises, and so for [process_file] on a success, on a
    failure and on an exception of the invoker, also one that
    [on_created] does not handle.  The result of the body is passed on
    unchanged.  Releasing is idempotent: with the marker absent it
    returns normally and changes nothing. *)
Theorem lock_released_on_every_exit (path : Path) :
  name path <> EmptyString ->
  (forall (body : M unit) (w : World),
      files w !! lock_path path = None ->
      let locked := mkWorld (<[lock_path path := EmptyString]> (files w)) (console w) in
      files (snd (file_lock path body w)) !! lock_path path = None
      /\ fst (file_lock path body w) = fst (body locked))
  /\ (forall (env : Env) (directory : bool) (w : World),
        reaches_extraction env (mkEvent directory path) w = true ->
        files (snd (on_created env (mkEvent directory path) w)) !! lock_path path = None)
  /\ (forall w : World,
        files w !! lock_path path = None ->
        release (lock_path path) w = (Return tt, w))
  /\ (forall w : World,
        fst (release (lock_path path) w) = Return tt
        /\ files (snd (release (lock_path path) w)) !! lock_path path = None
        /\ release (lock_path path) (snd (release (lock_path path) w))
           = (Return tt, snd (release (lock_path path) w))).
Proof.
  intros Hn. split_and!.
  - intros body w Hfree locked. rewrite file_lock_free by done.
    cbn [fst snd files]. split; [apply lookup_delete_eq|done].
  - intros env directory w Hreach.
    rewrite on_created_extracting by done. cbn [src_path].
    destruct (fst (process_file _ _ _)) as [a|e];
      [|destruct (handler_message path e)];
      cbn [snd files]; apply lookup_delete_eq.
  - intros w Hfree. by apply release_absent.
  - intros w. rewrite release_spec. cbn [fst snd].
    split_and!; [done|apply lookup_delete_eq|].
    apply release_absent. apply lookup_delete_eq.
Qed.

(** C6 at [x.jpg], on the three exits of the protected region. *)
Lemma lock_released_on_every_exit_witness :
  let lock := lock_path (WATCH_FOLDER // "x.jpg") in
  let after run :=
    files (snd (on_created (mkEnv (steady 2048) run) (created "x.jpg")
                  (one_label "x.jpg"))) !! lock in
  after (Completed 0 "") = None
  /\ after (Completed 1 "no expiry date found") = None
  /\ after (RunRaises OSError) = None
  /\ after (RunRaises KeyboardInterrupt) = None.
Proof.
  intros lock after.
  destruct (lock_released_on_every_exit (WATCH_FOLDER // "x.jpg")
              ltac:(discriminate)) as (_ & Hexit & _).
  split_and!; apply (Hexit _ false); reflexivity.
Defined.

(** C2 (as amended).  A failed read of the size is not caught by
    [wait_until_file_stable]: when the reads before it succeeded without
    two equal sizes in a row, the probe ends at the failed read and its
    exception is the outcome of the call.  The event of a supported file
    then ends with that exception, before the lock is taken: no marker
    is made and no file is moved. *)
Theorem read_error_propagates (st_size : nat -> result N) (sizes : nat -> N)
        (timeout : Z) (i : nat) (e : exn) :
  (forall j, (j < i)%nat -> st_size j = Return (sizes j)) ->
  (forall j, (S j < i)%nat -> sizes (S j) <> sizes j) ->
  st_size i = Raise e ->
  (i < Z.to_nat timeout)%nat ->
  wait_until_file_stable st_size timeout = (Raise e, S i)
  /\ (timeout = 10 ->
      forall (run : run_result) (event : Event) (w : World),
        is_directory event = false ->
        in_internal_folder (src_path event) = false ->
        is_image_file (src_path event) = true ->
        on_created (mkEnv st_size run) event w
        = (Raise e,
           mkWorld (files w) (console w ++ [NewLabel (name (src_path event))]))).
Proof.
  intros Hok Hdiff He Hlt.
  pose proof (wait_raises st_size sizes timeout i e Hok Hdiff He Hlt) as Hw.
  split; [done|]. intros -> run event w Hdir Hint Himg.
  rewrite on_created_probed by done. cbn [env_st_size]. by rewrite Hw.
Qed.

(** C2 at a file removed after its first read. *)
Lemma read_error_propagates_witness :
  wait_until_file_stable vanishing 10 = (Raise FileNotFoundError, 2%nat).
Proof.
  apply (read_error_propagates vanishing (fun _ => 5%N) 10 1 FileNotFoundError).
  - intros [|j] Hj; [reflexivity|lia].
  - intros j Hj. lia.
  - reflexivity.
  - vm_compute. lia.
Defined.

(** C2 fails as stated: for a file removed after its first read the
    probe does not return false at the timeout; it raises at the second
    read, and the exception leaves [on_created]. *)
Lemma read_error_escapes :
  fst (wait_until_file_stable vanishing 10) = Raise FileNotFoundError
  /\ fst (wait_until_file_stable vanishing 10) <> Return false
  /\ snd (wait_until_file_stable vanishing 10) = 2%nat
  /\ fst (on_created (mkEnv vanishing (Completed 0 "")) (created "x.jpg")
            (one_label "x.jpg")) = Raise FileNotFoundError.
Proof. split_and!; [reflexivity|discriminate|reflexivity|reflexivity]. Qed.

Lemma wait_steady (size : N) (timeout : Z) :
  2 <= timeout -> wait_until_file_stable (steady size) timeout = (Return true, 2%nat).
Proof.
  intros H. apply (wait_returns_true (steady size) (fun _ => size) timeout 0).
  - done.
  - intros j Hj. lia.
  - done.
  - lia.
Qed.

Lemma on_created_keeps_files_when_unstable (env : Env) (event : Event) (w : World) :
  fst (wait_until_file_stable (env_st_size env) 10) = Return false ->
  fst (on_created env event w) = Return tt
  /\ files (snd (on_created env event w)) = files w.
Proof.
  intros Hw.
  destruct (is_directory event) eqn:Hdir;
    [by rewrite on_created_ignored by auto|].
  destruct (in_internal_folder (src_path event)) eqn:Hint;
    [by rewrite on_created_ignored by auto|].
  destruct (is_image_file (src_path event)) eqn:Himg;
    [|by rewrite on_created_ignored by auto].
  rewrite on_created_probed by done. by rewrite Hw.
Qed.

(** C9 (as amended).  With reads that succeed, the probe returns true
    at the first read whose size equals the size of the read before,
    provided that read is among the first [timeout] ones.  A file whose
    size never changes is confirmed with two reads when [timeout] is at
    least 2 (the default is 10).  When each of the [timeout] reads gives
    a size other than the read before, the probe returns false after
    [timeout] reads; with the default [timeout] the event then ends
    without a marker made or a file moved. *)
Theorem stability_probe (st_size : nat -> result N) (sizes : nat -> N) (timeout : Z) :
  (forall i,
      (forall j, (j <= S i)%nat -> st_size j = Return (sizes j)) ->
      (forall j, (j < i)%nat -> sizes (S j) <> sizes j) ->
      sizes (S i) = sizes i ->
      (S i < Z.to_nat timeout)%nat ->
      wait_until_file_stable st_size timeout = (Return true, S (S i)))
  /\ (forall size,
        2 <= timeout ->
        wait_until_file_stable (steady size) timeout = (Return true, 2%nat)
        /\ (2 <= Z.to_nat timeout)%nat)
  /\ ((forall j, (j < Z.to_nat timeout)%nat -> st_size j = Return (sizes j)) ->
      (forall j, (S j < Z.to_nat timeout)%nat -> sizes (S j) <> sizes j) ->
      wait_until_file_stable st_size timeout = (Return false, Z.to_nat timeout)
      /\ (timeout = 10 ->
          forall (run : run_result) (event : Event) (w : World),
            fst (on_created (mkEnv st_size run) event w) = Return tt
            /\ files (snd (on_created (mkEnv st_size run) event w)) = files w)).
Proof.
  split_and!.
  - intros i. apply wait_returns_true.
  - intros size H. split; [by apply wait_steady|lia].
  - intros Hok Hdiff.
    pose proof (wait_returns_false st_size sizes timeout Hok Hdiff) as Hw.
    split; [done|]. intros -> run event w.
    apply on_created_keeps_files_when_unstable. cbn [env_st_size]. by rewrite Hw.
Qed.

(** C9 at a steady file and at a growing file under the default
    [timeout]. *)
Lemma stability_probe_witness :
  wait_until_file_stable (steady 2048) 10 = (Return true, 2%nat)
  /\ wait_until_file_stable growing 10 = (Return false, 10%nat)
  /\ files (snd (on_created (mkEnv growing (Completed 0 "")) (created "x.jpg")
                   (one_label "x.jpg")))
     = files (one_label "x.jpg").
Proof.
  destruct (stability_probe growing N.of_nat 10) as (_ & _ & Hgrow).
  destruct (stability_probe (steady 2048) (fun _ => 2048%N) 10) as (_ & Hsteady & _).
  destruct Hgrow as [Hfalse Hev].
  - done.
  - intros j _ E. apply Nat2N.inj in E. lia.
  - split_and!.
    + apply Hsteady. lia.
    + exact Hfalse.
    + apply (Hev eq_refl).
Defined.

(** C9 fails as stated when [timeout] is 1: a file whose size never
    changes is then read once and not confirmed. *)
Lemma steady_file_unconfirmed_in_one_sample :
  wait_until_file_stable (steady 2048) 1 = (Return false, 1%nat)
  /\ fst (wait_until_file_stable (steady 2048) 1) <> Return true.
Proof. split; [reflexivity|discriminate]. Qed.

(** C10 (as amended).  The probe confirms only from the second read on:
    whenever it returns true at least two reads were made, so with
    [timeout <= 1] it never returns true.  With [timeout <= 0] it reads
    nothing and returns false for every file; with [timeout = 1] it
    reads once and returns false when that read succeeds, and raises
    the exception of the read when it fails.  A file whose size never
    changes is confirmed at exactly the second read (given
    [2 <= timeout]); and the initial [last_size] of -1 is not the size
    of any file. *)
Theorem confirmation_needs_second_sample :
  (forall (st_size : nat -> result N) (timeout : Z),
      fst (wait_until_file_stable st_size timeout) = Return true ->
      (2 <= snd (wait_until_file_stable st_size timeout))%nat)
  /\ (forall (st_size : nat -> result N) (timeout : Z),
        timeout <= 1 -> fst (wait_until_file_stable st_size timeout) <> Return true)
  /\ (forall (sizes : nat -> N) (timeout : Z),
        timeout <= 1 ->
        fst (wait_until_file_stable (reads sizes) timeout) = Return false)
  /\ (forall (size : N) (timeout : Z),
        2 <= timeout ->
        wait_until_file_stable (steady size) timeout = (Return true, 2%nat))
  /\ (forall size : N, Z.of_N size <> -1)
  /\ (forall (st_size : nat -> result N) (timeout : Z),
        timeout <= 0 ->
        wait_until_file_stable st_size timeout = (Return false, 0%nat))
  /\ (forall st_size : nat -> result N,
        wait_until_file_stable st_size 1
        = match st_size 0%nat with
          | Return _ => (Return false, 1%nat)
          | Raise e => (Raise e, 1%nat)
          end).
Proof.
  split_and!.
  - intros st_size timeout H.
    apply (stable_loop_true st_size (Z.to_nat timeout) 0 (-1)); [lia|exact H].
  - intros st_size timeout Hle H.
    pose proof (stable_loop_true st_size (Z.to_nat timeout) 0 (-1) ltac:(lia) H) as H2.
    pose proof (stable_loop_reads st_size (Z.to_nat timeout) 0 (-1)) as H3.
    fold (wait_until_file_stable st_size timeout) in H2, H3. lia.
  - intros sizes timeout Hle.
    rewrite (wait_returns_false (reads sizes) sizes); [done|done|].
    intros j Hj. lia.
  - intros size timeout. apply wait_steady.
  - intros size. lia.
  - intros st_size timeout Hle. unfold wait_until_file_stable.
    by replace (Z.to_nat timeout) with 0%nat by lia.
  - intros st_size. unfold wait_until_file_stable.
    change (Z.to_nat 1) with 1%nat. cbn [stable_loop].
    destruct (st_size 0%nat) as [sz|e]; [|done].
    destruct (Z.eqb_spec (Z.of_N sz) (-1)); [lia|done].
Qed.

(** C10 at the file sizes of a steady file, and at a file that is
    gone. *)
Lemma confirmation_needs_second_sample_witness :
  fst (wait_until_file_stable (steady 2048) 1) = Return false
  /\ wait_until_file_stable (steady 2048) 2 = (Return true, 2%nat)
  /\ wait_until_file_stable gone 0 = (Return false, 0%nat).
Proof.
  destruct confirmation_needs_second_sample as (_ & _ & Hone & Htwo & _ & Hzero & _).
  split_and!;
    [apply (Hone (fun _ => 2048%N) 1); lia | apply Htwo; lia | apply Hzero; lia].
Defined.

(** C10 fails as stated for a file that cannot be read: with [timeout]
    1 the one read fails and the call raises instead of returning
    false. *)
Lemma unreadable_file_raises_in_one_sample :
  wait_until_file_stable gone 1 = (Raise FileNotFoundError, 1%nat)
  /\ fst (wait_until_file_stable gone 1) <> Return false
  /\ ~ (forall (st_size : nat -> result N) (timeout : Z),
          timeout <= 1 ->
          fst (wait_until_file_stable st_size timeout) = Return false).
Proof.
  split_and!; [reflexivity|discriminate|].
  intros H. specialize (H gone 1 ltac:(lia)). discriminate H.
Qed.

(* ================================================================== *)
(** * Further properties of the watcher                                *)
(* ================================================================== *)

(** ** The stability probe *)

Lemma stable_loop_true_inv (st_size : nat -> result N) (todo i : nat) (last : Z) :
  fst (stable_loop st_size todo i last) = Return true ->
  (exists sz, st_size i = Return sz /\ Z.of_N sz = last
              /\ snd (stable_loop st_size todo i last) = S i)
  \/ (exists j sz, (i <= j)%nat /\ st_size j = Return sz
                   /\ st_size (S j) = Return sz
                   /\ snd (stable_loop st_size todo i last) = S (S j)
                   /\ (S j < i + todo)%nat).
Proof.
  revert i last; induction todo as [|todo IH]; intros i last;
    cbn [stable_loop fst snd]; [done|].
  destruct (st_size i) as [sz|e] eqn:Ei; cbn [fst snd]; [|done].
  destruct (Z.eqb_spec (Z.of_N sz) last) as [Heq|Hne]; cbn [fst snd].
  - intros _. left. by exists sz.
  - intros H. right. destruct (IH _ _ H) as [(sz' & E' & Hsz & Hsnd)
                                            | (j & sz' & Hj & E1 & E2 & Hsnd & Hlt)].
    + exists i, sz. apply N2Z.inj in Hsz. subst sz'.
      split_and!; [lia|done|done|done|].
      destruct todo; [done|lia].
    + exists j, sz'. split_and!; [lia|done|done|done|lia].
Qed.

Lemma stable_loop_false_inv (st_size : nat -> result N) (todo i : nat) (last : Z) :
  fst (stable_loop st_size todo i last) = Return false ->
  snd (stable_loop st_size todo i last) = (i + todo)%nat
  /\ forall j, (i <= j < i + todo)%nat -> exists sz, st_size j = Return sz.
Proof.
  revert i last; induction todo as [|todo IH]; intros i last;
    cbn [stable_loop fst snd].
  - intros _. split; [lia|]. intros j Hj. lia.
  - destruct (st_size i) as [sz|e] eqn:Ei; cbn [fst snd]; [|done].
    destruct (Z.of_N sz =? last); cbn [fst snd]; [done|].
    intros H. destruct (IH _ _ H) as [Hsnd Hall]. split; [lia|].
    intros j Hj. destruct (decide (j = i)) as [->|]; [by exists sz|].
    apply Hall. lia.
Qed.

(** X1.  [wait_until_file_stable] answers true only when the last two
    reads it made both succeeded and gave the same size; these are two
    reads in a row among the first [timeout] ones. *)
Theorem stable_only_after_equal_reads (st_size : nat -> result N) (timeout : Z) :
  fst (wait_until_file_stable st_size timeout) = Return true ->
  exists i sz,
    st_size i = Return sz
    /\ st_size (S i) = Return sz
    /\ snd (wait_until_file_stable st_size timeout) = S (S i)
    /\ (S i < Z.to_nat timeout)%nat.
Proof.
  unfold wait_until_file_stable. intros H.
  destruct (stable_loop_true_inv _ _ _ _ H)
    as [(sz & _ & Hsz & _) | (j & sz & _ & E1 & E2 & Hsnd & Hlt)]; [lia|].
  exists j, sz. split_and!; [done|done|done|lia].
Qed.

(** X1 at a file that grows once and then keeps its size. *)
Lemma stable_only_after_equal_reads_witness :
  exists i sz,
    (fun k => Return (N.min (N.of_nat k) 1)) i = Return sz
    /\ (fun k => Return (N.min (N.of_nat k) 1)) (S i) = Return sz
    /\ snd (wait_until_file_stable (fun k => Return (N.min (N.of_nat k) 1)) 10) = S (S i)
    /\ (S i < Z.to_nat 10)%nat.
Proof.
  apply (stable_only_after_equal_reads (fun k => Return (N.min (N.of_nat k) 1)) 10).
  reflexivity.
Defined.

(** X2.  The probe reads the size at most [timeout] times, whatever the
    reads give; it answers false only after exactly [timeout] reads,
    all of which succeeded; and for [timeout <= 0] it reads nothing and
    answers false, also for a file that cannot be read. *)
Theorem probe_is_bounded (st_size : nat -> result N) (timeout : Z) :
  (snd (wait_until_file_stable st_size timeout) <= Z.to_nat timeout)%nat
  /\ (fst (wait_until_file_stable st_size timeout) = Return false ->
      snd (wait_until_file_stable st_size timeout) = Z.to_nat timeout
      /\ forall j, (j < Z.to_nat timeout)%nat -> exists sz, st_size j = Return sz)
  /\ (timeout <= 0 -> wait_until_file_stable st_size timeout = (Return false, 0%nat)).
Proof.
  unfold wait_until_file_stable. split_and!.
  - pose proof (stable_loop_reads st_size (Z.to_nat timeout) 0 (-1)). lia.
  - intros H. destruct (stable_loop_false_inv _ _ _ _ H) as [Hsnd Hall].
    split; [done|]. intros j Hj. apply Hall. lia.
  - intros H. by replace (Z.to_nat timeout) with 0%nat by lia.
Qed.

(** X2 at a file that is gone from the start. *)
Lemma probe_is_bounded_witness :
  (snd (wait_until_file_stable (fun _ => Raise FileNotFoundError) 10) <= 10)%nat
  /\ wait_until_file_stable (fun _ => Raise FileNotFoundError) 0 = (Return false, 0%nat).
Proof.
  destruct (probe_is_bounded (fun _ => Raise FileNotFoundError) 10) as (Hle & _).
  destruct (probe_is_bounded (fun _ => Raise FileNotFoundError) 0) as (_ & _ & Hzero).
  split; [exact Hle | apply Hzero; lia].
Defined.

(** ** The lock *)

Lemma app_cancel_r (s t u : string) : s +:+ u = t +:+ u -> s = t.
Proof.
  revert t; induction s as [|a s IH]; intros [|b t] E; [done| | |].
  - apply (f_equal String.length) in E.
    rewrite app_empty_l, length_app_str in E. cbn in E. lia.
  - apply (f_equal String.length) in E.
    rewrite app_empty_l, length_app_str in E. cbn in E. lia.
  - rewrite !app_cons in E. injection E as -> E. f_equal. by apply IH.
Qed.

Lemma lock_path_inj (p q : Path) : lock_path p = lock_path q -> p = q.
Proof.
  destruct p as [d n], q as [d' n']. unfold lock_path. cbn [dirs name].
  intros E. injection E as -> E. f_equal. by apply app_cancel_r in E.
Qed.

Lemma world_eta (w : World) : mkWorld (files w) (console w) = w.
Proof. by destruct w. Qed.

(** X3.  The lock is exclusive: while the lock of a path is held, taking
    it again raises [RuntimeError] and the inner body is not run; the
    outer block then releases the marker, so the whole leaves the world
    as it found it. *)
Theorem lock_is_exclusive (path : Path) (body : M unit) (w : World) :
  name path <> EmptyString ->
  files w !! lock_path path = None ->
  file_lock path (file_lock path body) w = (Raise RuntimeError, w).
Proof.
  intros Hn Hfree. rewrite file_lock_free by done. cbn zeta.
  rewrite file_lock_held by
    (first [done | cbn [files]; rewrite lookup_insert_eq; eauto]).
  cbn [fst snd files console].
  rewrite delete_insert_id by done. by rewrite world_eta.
Qed.

(** X3 at [x.jpg], with a body that would move the file. *)
Lemma lock_is_exclusive_witness :
  file_lock (WATCH_FOLDER // "x.jpg")
    (file_lock (WATCH_FOLDER // "x.jpg")
       (process_file (Completed 0 "") (WATCH_FOLDER // "x.jpg")))
    (one_label "x.jpg")
  = (Raise RuntimeError, one_label "x.jpg").
Proof.
  apply lock_is_exclusive; [discriminate | reflexivity].
Defined.

(** X4.  The markers of two different paths are different files, so the
    locks do not interfere: with both markers free, the lock of [q] can
    be taken while the lock of [p] is held, the body runs with both
    markers present, and both are gone afterwards. *)
Theorem locks_of_different_files (p q : Path) (body : M unit) (w : World) :
  name p <> EmptyString -> name q <> EmptyString ->
  p <> q ->
  files w !! lock_path p = None ->
  files w !! lock_path q = None ->
  let both := mkWorld (<[lock_path q := EmptyString]>
                         (<[lock_path p := EmptyString]> (files w)))
                      (console w) in
  lock_path p <> lock_path q
  /\ fst (file_lock p (file_lock q body) w) = fst (body both)
  /\ files (snd (file_lock p (file_lock q body) w)) !! lock_path p = None
  /\ files (snd (file_lock p (file_lock q body) w)) !! lock_path q = None.
Proof.
  intros Hp Hq Hne Hfp Hfq both.
  assert (lock_path p <> lock_path q) as Hl by (intros E; by apply lock_path_inj in E).
  rewrite file_lock_free by done. cbn zeta.
  rewrite (file_lock_free q) by
    (first [done | cbn [files]; by rewrite lookup_insert_ne]).
  cbn [fst snd files console]. fold both.
  split_and!; [done|done|apply lookup_delete_eq|].
  rewrite lookup_delete_ne by done. apply lookup_delete_eq.
Qed.

(** X4 at two labels of the watched folder. *)
Lemma locks_of_different_files_witness :
  fst (file_lock (WATCH_FOLDER // "x.jpg")
         (file_lock (WATCH_FOLDER // "y.jpg") (ret tt)) (one_label "x.jpg"))
  = Return tt.
Proof.
  destruct (locks_of_different_files (WATCH_FOLDER // "x.jpg") (WATCH_FOLDER // "y.jpg")
              (ret tt) (one_label "x.jpg")
              ltac:(discriminate) ltac:(discriminate) ltac:(discriminate)
              eq_refl eq_refl) as (_ & Hrun & _).
  exact Hrun.
Defined.

(** ** Events that are discarded *)

Lemma lock_path_not_image (path : Path) : is_image_file (lock_path path) = false.
Proof.
  destruct path as [d n]. unfold lock_path. cbn [dirs name].
  destruct (decide (n = EmptyString)) as [->|Hn]; [by vm_compute|].
  destruct (parts_with_extension d n LOCK_SUFFIX Hn eq_refl) as [_ Hsfx].
  unfold is_image_file. rewrite Hsfx. by vm_compute.
Qed.

(** X5.  The marker file of the lock is never taken for a label: it has
    no supported extension, so the create event of a marker, which the
    watcher causes itself in the watched folder, changes nothing. *)
Theorem marker_event_is_discarded (env : Env) (directory : bool) (path : Path)
        (w : World) :
  is_image_file (lock_path path) = false
  /\ on_created env (mkEvent directory (lock_path path)) w = (Return tt, w).
Proof.
  split; [apply lock_path_not_image|].
  apply on_created_ignored. right. right. apply lock_path_not_image.
Qed.

Lemma ancestors_app (l1 l2 : list string) (x : string) :
  mkPath (List.rev l2) x ∈ PurePath.ancestors (l1 ++ x :: l2).
Proof.
  induction l1 as [|a l1 IH]; cbn [app PurePath.ancestors].
  - apply elem_of_cons. by left.
  - apply elem_of_cons. by right.
Qed.

Lemma folder_in_parents (folder : Path) (sub : list string) (n : string) :
  folder ∈ PurePath.parents (mkPath (dirs folder ++ name folder :: sub) n).
Proof.
  unfold PurePath.parents. cbn [dirs].
  rewrite rev_app_distr. cbn [List.rev]. rewrite <- app_assoc. cbn [app].
  pose proof (ancestors_app (List.rev sub) (List.rev (dirs folder)) (name folder)) as H.
  rewrite rev_involutive in H. by destruct folder.
Qed.

(** X6.  Every path below the processed folder or the retry folder, at
    any depth, is discarded: its event changes nothing, whatever the
    extension, the file sizes or the extraction would be. *)
Theorem internal_paths_are_discarded (env : Env) (directory : bool)
        (sub : list string) (n : string) (w : World) :
  on_created env
    (mkEvent directory (mkPath (dirs PROCESSED_FOLDER ++ name PROCESSED_FOLDER :: sub) n)) w
  = (Return tt, w)
  /\ on_created env
       (mkEvent directory (mkPath (dirs RETRY_FOLDER ++ name RETRY_FOLDER :: sub) n)) w
     = (Return tt, w).
Proof.
  split; apply on_created_ignored; right; left; cbn [src_path];
    unfold in_internal_folder; cbn [existsb].
  - rewrite bool_decide_eq_true_2; [done|]. apply folder_in_parents.
  - rewrite (bool_decide_eq_true_2 (RETRY_FOLDER ∈ _)); [apply orb_true_r|].
    apply folder_in_parents.
Qed.

(** ** What an event may touch *)

(** An event that does not reach the extraction leaves the files as
    they are. *)
Lemma on_created_files_kept (env : Env) (event : Event) (w : World) :
  reaches_extraction env event w = false ->
  files (snd (on_created env event w)) = files w.
Proof.
  intros Hno.
  destruct (is_directory event) eqn:Hdir;
    [by rewrite on_created_ignored by auto|].
  destruct (in_internal_folder (src_path event)) eqn:Hint;
    [by rewrite on_created_ignored by auto|].
  destruct (is_image_file (src_path event)) eqn:Himg;
    [|by rewrite on_created_ignored by auto].
  destruct (image_file_parts _ Himg) as (_ & Hn & _).
  rewrite on_created_probed by done.
  unfold reaches_extraction, reaches_lock in Hno.
  rewrite Hdir, Hint, Himg in Hno. cbn [negb andb] in Hno.
  destruct (fst (wait_until_file_stable _ _)) as [[|]|e]; [|done|done].
  cbn [andb] in Hno. apply bool_decide_eq_false in Hno.
  destruct (files w !! lock_path (src_path event)) as [m|] eqn:Hheld; [|done].
  unfold try_except. rewrite file_lock_held by eauto.
  by cbn [is_RuntimeError print snd files].
Qed.

(** X7.  The watcher never leaves a marker behind and never clears a
    marker it did not make: for every event, environment and world, a
    marker that was absent before the event is absent after it, and
    when the marker was there before, the event changes no file at all,
    so the label is not processed as long as a stale marker stays. *)
Theorem marker_hygiene (env : Env) (event : Event) (w : World) :
  (files w !! lock_path (src_path event) = None ->
   files (snd (on_created env event w)) !! lock_path (src_path event) = None)
  /\ (is_Some (files w !! lock_path (src_path event)) ->
      files (snd (on_created env event w)) = files w).
Proof.
  split.
  - intros Hfree. destruct (reaches_extraction env event w) eqn:Hreach.
    + rewrite on_created_extracting by done.
      destruct (fst (process_file _ _ _)) as [a|e];
        [|destruct (handler_message _ e)];
        cbn [snd files]; apply lookup_delete_eq.
    + by rewrite on_created_files_kept.
  - intros [m Hm]. apply on_created_files_kept.
    unfold reaches_extraction. rewrite Hm.
    rewrite bool_decide_eq_false_2 by done. apply andb_false_r.
Qed.

(** X7 at [x.jpg] with a stale marker: nothing happens to the label. *)
Lemma marker_hygiene_witness :
  let w := mkWorld (<[WATCH_FOLDER // "x.jpg.lock" := EmptyString]>
                      (files (one_label "x.jpg"))) [] in
  files (snd (on_created extraction_succeeds (created "x.jpg") w)) = files w.
Proof.
  intros w.
  apply (proj2 (marker_hygiene extraction_succeeds (created "x.jpg") w)).
  exists EmptyString. reflexivity.
Defined.

Lemma process_file_frame (run : run_result) (path q : Path) (w : World) :
  q <> path ->
  q <> PROCESSED_FOLDER // name path ->
  q <> retry_destination path ->
  files (snd (process_file run path w)) !! q = files w !! q.
Proof.
  intros H1 H2 H3. unfold process_file.
  destruct run as [rc err|e]; [|done].
  unfold bind at 1. unfold print at 1.
  destruct (rc =? 0).
  - unfold bind, shutil_move. cbn [files console].
    destruct (files w !! path) as [data|]; [|done].
    cbn [print snd files]. rewrite lookup_insert_ne by done.
    by rewrite lookup_delete_ne.
  - unfold bind at 1. unfold print at 1. unfold bind at 1. unfold print at 1.
    destruct (get_retry_count path <? MAX_RETRIES); [|done].
    destruct (decide (name path = EmptyString)) as [Hn|Hn].
    + by rewrite increment_retry_raises.
    + rewrite increment_retry_spec by done.
      unfold bind, lift, shutil_move. cbn [files console name].
      destruct (files w !! path) as [data|]; [|done].
      cbn [print snd files]. rewrite lookup_insert_ne by done.
      by rewrite lookup_delete_ne.
Qed.

(** X8.  An event touches at most four paths: the file of the event,
    its marker, its place in the processed folder and the place of its
    next retry name in the retry folder.  Every other file is after the
    event what it was before, whatever the environment. *)
Theorem on_created_frame (env : Env) (event : Event) (w : World) (q : Path) :
  let path := src_path event in
  q <> path ->
  q <> lock_path path ->
  q <> PROCESSED_FOLDER // name path ->
  q <> retry_destination path ->
  files (snd (on_created env event w)) !! q = files w !! q.
Proof.
  intros path H1 H2 H3 H4.
  destruct (reaches_extraction env event w) eqn:Hreach;
    [|by rewrite on_created_files_kept].
  rewrite on_created_extracting by done.
  assert (files (snd (process_file (env_run env) path
                        (mkWorld (<[lock_path path := EmptyString]> (files w))
                                 (console w ++ [NewLabel (name path)])))) !! q
          = files w !! q) as Hout
    by (rewrite process_file_frame by done; cbn [files]; by rewrite lookup_insert_ne).
  fold path.
  destruct (fst (process_file _ _ _)) as [a|e];
    [|destruct (handler_message _ e)]; cbn [snd files];
    by rewrite lookup_delete_ne.
Qed.

(** X8 at two labels: the failure of [x.jpg] leaves [y.jpg] alone. *)
Lemma on_created_frame_witness :
  let w := mkWorld (<[WATCH_FOLDER // "y.jpg" := "other"%string]>
                      (files (one_label "x.jpg"))) [] in
  files (snd (on_created extraction_fails (created "x.jpg") w)) !! (WATCH_FOLDER // "y.jpg")
  = Some "other"%string.
Proof.
  intros w.
  rewrite (on_created_frame extraction_fails (created "x.jpg") w (WATCH_FOLDER // "y.jpg"));
    [reflexivity | discriminate | discriminate | discriminate | discriminate].
Defined.

(** ** Errors inside the protected region *)

(** X9.  An exception of the invoker does not end the watcher when it is
    an [Exception]: the event returns normally, the marker is released
    and no file has changed.  A [RuntimeError] of the invoker is
    printed as "File locked, skipping", every other [Exception] as
    "Unexpected error".  What is not an [Exception]
    ([KeyboardInterrupt]) leaves [on_created], again with the marker
    released and the files unchanged. *)
Theorem invoker_exception_is_contained (env : Env) (event : Event) (w : World)
        (e : exn) :
  reaches_extraction env event w = true ->
  env_run env = RunRaises e ->
  let path := src_path event in
  files (snd (on_created env event w)) = files w
  /\ (is_Exception e = true ->
      on_created env event w
      = (Return tt,
         mkWorld (files w)
                 (console w ++ [NewLabel (name path); Running;
                                if is_RuntimeError e then FileLocked (name path)
                                else UnexpectedError e])))
  /\ (is_Exception e = false -> fst (on_created env event w) = Raise e).
Proof.
  intros Hreach Hrun path.
  pose proof Hreach as (_ & _ & _ & _ & Hfree)%reaches_extraction_inv.
  rewrite on_created_extracting by done. rewrite Hrun, process_file_raises.
  cbn [fst snd files console]. rewrite delete_insert_id by done.
  unfold handler_message.
  destruct e; cbn [is_RuntimeError is_Exception fst snd files];
    split_and!; first [done | intros _; by rewrite <- !app_assoc].
Qed.

(** X9 at an invoker that cannot start the script. *)
Lemma invoker_exception_is_contained_witness :
  on_created (mkEnv (steady 2048) (RunRaises OSError)) (created "x.jpg") (one_label "x.jpg")
  = (Return tt,
     mkWorld (files (one_label "x.jpg"))
             [NewLabel "x.jpg"; Running; UnexpectedError OSError]).
Proof.
  destruct (invoker_exception_is_contained (mkEnv (steady 2048) (RunRaises OSError))
              (created "x.jpg") (one_label "x.jpg") OSError eq_refl eq_refl)
    as (_ & Hrun & _).
  exact (Hrun eq_refl).
Defined.

Lemma process_file_missing (w : World) (path : Path) (err : string) (rc : Z) :
  files w !! path = None ->
  name path <> EmptyString ->
  rc = 0 \/ get_retry_count path < MAX_RETRIES ->
  exists printed,
    process_file (Completed rc err) path w
    = (Raise FileNotFoundError, mkWorld (files w) (console w ++ printed)).
Proof.
  intros Hgone Hn Hmove. unfold process_file.
  destruct (Z.eqb_spec rc 0) as [->|Hrc].
  - exists [Running]. run_M. by rewrite Hgone.
  - destruct Hmove as [?|Hlt]; [done|].
    destruct (Z.ltb_spec (get_retry_count path) MAX_RETRIES); [|lia].
    rewrite increment_retry_spec by done.
    exists [Running; ProcessingFailed (get_retry_count path + 1); Stderr err].
    run_M. cbn [name]. rewrite Hgone. by rewrite <- !app_assoc.
Qed.

(** X10.  When the file of the event is gone by the time it is to be
    moved (after a success, or after a failure below [MAX_RETRIES]),
    [shutil.move] raises [FileNotFoundError]; the event prints it as an
    unexpected error and returns normally, the marker is released and
    no file has changed. *)
Theorem vanished_file_is_reported (env : Env) (event : Event) (w : World)
        (err : string) (rc : Z) :
  reaches_extraction env event w = true ->
  env_run env = Completed rc err ->
  files w !! src_path event = None ->
  rc = 0 \/ get_retry_count (src_path event) < MAX_RETRIES ->
  fst (on_created env event w) = Return tt
  /\ files (snd (on_created env event w)) = files w
  /\ List.last (console (snd (on_created env event w))) Running
     = UnexpectedError FileNotFoundError.
Proof.
  intros Hreach Hrun Hgone Hmove.
  pose proof Hreach as (_ & _ & Himg & _ & Hfree)%reaches_extraction_inv.
  destruct (image_file_parts _ Himg) as (_ & Hn & _).
  rewrite on_created_extracting by done. rewrite Hrun.
  destruct (process_file_missing
              (mkWorld (<[lock_path (src_path event) := EmptyString]> (files w))
                       (console w ++ [NewLabel (name (src_path event))]))
              (src_path event) err rc) as [printed ->]; [|done|done|].
  { cbn [files]. rewrite lookup_insert_ne; [done|]. by apply lock_path_differs. }
  cbn [handler_message is_RuntimeError is_Exception fst snd files console].
  rewrite delete_insert_id by done.
  split_and!; [done|done|]. by rewrite last_last.
Qed.

(** X10 at an event whose file is not there. *)
Lemma vanished_file_is_reported_witness :
  fst (on_created extraction_succeeds (created "x.jpg") no_files) = Return tt
  /\ files (snd (on_created extraction_succeeds (created "x.jpg") no_files)) = files no_files.
Proof.
  destruct (vanished_file_is_reported extraction_succeeds (created "x.jpg")
              no_files "" 0 eq_refl eq_refl eq_refl (or_introl eq_refl))
    as (H1 & H2 & _).
  split; [exact H1 | exact H2].
Defined.

(** ** The one move of an event *)

Lemma process_file_outcome (run : run_result) (path : Path) (w : World) :
  files (snd (process_file run path w)) = files w
  \/ exists data dst,
       files w !! path = Some data
       /\ (dst = PROCESSED_FOLDER // name path \/ dst = retry_destination path)
       /\ files (snd (process_file run path w)) = <[dst := data]> (delete path (files w)).
Proof.
  destruct run as [rc err|e]; [|by left].
  destruct (files w !! path) as [data|] eqn:Hfile.
  - destruct (Z.eqb_spec rc 0) as [->|Hrc].
    + right. exists data, (PROCESSED_FOLDER // name path).
      rewrite (process_file_success _ _ data) by done. eauto.
    + destruct (Z.ltb_spec (get_retry_count path) MAX_RETRIES) as [Hlt|Hge].
      * destruct (decide (name path = EmptyString)) as [Hn|Hn].
        -- left. unfold process_file.
           destruct (Z.eqb_spec rc 0); [done|].
           destruct (Z.ltb_spec (get_retry_count path) MAX_RETRIES); [|lia].
           by rewrite increment_retry_raises.
        -- right. exists data, (retry_destination path).
           rewrite (process_file_retry _ _ data) by done. eauto.
      * left. by rewrite process_file_stuck.
  - left. unfold process_file.
    destruct (Z.eqb_spec rc 0) as [->|Hrc].
    + run_M. by rewrite Hfile.
    + destruct (Z.ltb_spec (get_retry_count path) MAX_RETRIES) as [Hlt|Hge]; [|done].
      destruct (decide (name path = EmptyString)) as [Hn|Hn].
      * by rewrite increment_retry_raises.
      * rewrite increment_retry_spec by done. run_M. cbn [name]. by rewrite Hfile.
Qed.

Lemma move_size (m : gmap Path string) (src dst : Path) (data : string) :
  m !! src = Some data ->
  (size (<[dst := data]> (delete src m)) <= size m)%nat
  /\ (m !! dst = None -> size (<[dst := data]> (delete src m)) = size m).
Proof.
  intros Hsrc.
  assert (size m <> 0%nat) as Hpos by (apply map_size_ne_0_lookup_2 with src; eauto).
  rewrite map_size_insert, map_size_delete, Hsrc. split.
  - destruct (delete src m !! dst); cbn; lia.
  - intros Hdst. rewrite (proj2 (lookup_delete_None m src dst)) by auto. cbn. lia.
Qed.

(** X11.  For every event, environment and world, the event either
    leaves the files as they are or makes exactly one change: the file
    of the event is moved, with its content, to its own name in the
    processed folder or to its next retry name in the retry folder.  So
    the watcher never adds a file, and the number of files goes down
    only when the move replaces a file already at the destination. *)
Theorem event_makes_at_most_one_move (env : Env) (event : Event) (w : World) :
  let path := src_path event in
  let after := files (snd (on_created env event w)) in
  (after = files w
   \/ exists data dst,
        files w !! path = Some data
        /\ (dst = PROCESSED_FOLDER // name path \/ dst = retry_destination path)
        /\ after = <[dst := data]> (delete path (files w)))
  /\ (size after <= size (files w))%nat
  /\ (files w !! (PROCESSED_FOLDER // name path) = None ->
      files w !! retry_destination path = None ->
      size after = size (files w)).
Proof.
  intros path after.
  assert (after = files w
          \/ exists data dst,
               files w !! path = Some data
               /\ (dst = PROCESSED_FOLDER // name path \/ dst = retry_destination path)
               /\ after = <[dst := data]> (delete path (files w))) as Hcases.
  { subst after. destruct (reaches_extraction env event w) eqn:Hreach;
      [|left; by apply on_created_files_kept].
    pose proof Hreach as (_ & Hint & _ & _ & Hfree)%reaches_extraction_inv.
    assert (files (snd (on_created env event w))
            = delete (lock_path path)
                (files (snd (process_file (env_run env) path
                   (mkWorld (<[lock_path path := EmptyString]> (files w))
                            (console w ++ [NewLabel (name path)])))))) as ->.
    { rewrite on_created_extracting by done. fold path.
      destruct (fst (process_file _ _ _)) as [a|e];
        [|destruct (handler_message _ e)]; reflexivity. }
    destruct (process_file_outcome (env_run env) path
                (mkWorld (<[lock_path path := EmptyString]> (files w))
                         (console w ++ [NewLabel (name path)])))
      as [-> | (data & dst & Hfile & Hdst & ->)]; cbn [files] in *.
    - left. by rewrite delete_insert_id.
    - right. exists data, dst.
      rewrite lookup_insert_ne in Hfile by (by apply lock_path_differs).
      split_and!; [done|done|].
      apply unlock_after_move; [done|].
      destruct Hdst as [-> | ->];
        [by destruct (outside_internal path (name path) Hint) as (_ & _ & ? & _)
        |by destruct (outside_internal path
                        (retry_name (base_name path) (get_retry_count path + 1)
                                    (PurePath.suffix path)) Hint) as (_ & _ & _ & ?)]. }
  split; [exact Hcases|].
  destruct Hcases as [-> | (data & dst & Hfile & Hdst & ->)]; [done|].
  destruct (move_size (files w) path dst data Hfile) as [Hle Heq].
  split; [exact Hle|]. intros H1 H2. apply Heq. by destruct Hdst as [-> | ->].
Qed.

(** X11 at a success that replaces an earlier file of the same name. *)
Lemma event_makes_at_most_one_move_witness :
  let w := mkWorld (<[PROCESSED_FOLDER // "x.jpg" := "earlier"%string]>
                      (files (one_label "x.jpg"))) [] in
  (size (files (snd (on_created extraction_succeeds (created "x.jpg") w)))
   <= size (files w))%nat.
Proof.
  intros w.
  exact (proj1 (proj2 (event_makes_at_most_one_move extraction_succeeds
                         (created "x.jpg") w))).
Defined.

(** ** The ledger on names with a supported extension *)

Lemma increment_retry_image (path : Path) :
  is_image_file path = true ->
  exists q,
    increment_retry path = Return q
    /\ dirs q = dirs path
    /\ PurePath.stem q
       = base_name path +:+ RETRY_MARK +:+ py_str (get_retry_count path + 1)
    /\ PurePath.suffix q = PurePath.suffix path
    /\ is_image_file q = true
    /\ get_retry_count q = get_retry_count path + 1
    /\ base_name q = base_name path.
Proof.
  intros Himg. destruct (image_file_parts _ Himg) as (_ & Hn & Hr).
  rewrite increment_retry_spec by done. eexists. split; [reflexivity|].
  destruct (retry_name_parts (dirs path) _ _ (get_retry_count path + 1) Hr)
    as [Hst Hsfx].
  destruct (ledger_reads_retry_name _ _ _ (base_name_clean path) Hst) as (Hc & Hb & _).
  split_and!; try done.
  unfold is_image_file in *. by rewrite Hsfx.
Qed.

(** X12.  [increment_retry] normalises the name of a supported file:
    the new stem is the text before the first marker of the old stem,
    one marker and the new count, so it holds exactly one marker,
    whatever followed the first marker before (further markers, a
    count that [int] rejects).  Folder and extension are kept, so the
    renamed file is again a supported file. *)
Theorem increment_retry_normalises (path : Path) :
  is_image_file path = true ->
  exists q,
    increment_retry path = Return q
    /\ split RETRY_MARK (PurePath.stem q)
       = [before RETRY_MARK (PurePath.stem path); py_str (get_retry_count path + 1)]
    /\ contains RETRY_MARK (before RETRY_MARK (PurePath.stem path)) = false
    /\ dirs q = dirs path
    /\ PurePath.suffix q = PurePath.suffix path
    /\ is_image_file q = true.
Proof.
  intros Himg.
  destruct (increment_retry_image path Himg) as (q & Hq & Hd & Hst & Hsfx & Hi & _).
  exists q. pose proof (base_name_clean path) as Hclean.
  unfold base_name in Hst, Hclean. rewrite first_piece_split in Hst, Hclean.
  split_and!; try done.
  rewrite Hst. apply split_last_marker; [done|apply py_str_no_marker].
Qed.

(** X12 at a name with two markers and at a name with a count that is
    no number. *)
Lemma increment_retry_normalises_witness :
  increment_retry (WATCH_FOLDER // "a__retry1__retry2.PNG")
  = Return (WATCH_FOLDER // "a__retry3.PNG")
  /\ increment_retry (WATCH_FOLDER // "a__retryX.jpg")
     = Return (WATCH_FOLDER // "a__retry1.jpg").
Proof.
  destruct (increment_retry_normalises (WATCH_FOLDER // "a__retry1__retry2.PNG") eq_refl)
    as (q & Hq & _).
  split; [|reflexivity]. rewrite Hq. vm_compute in Hq. by injection Hq as <-.
Defined.

(** X13.  On a supported file the chain of retry names advances by one
    at each step from whatever count the name starts with (a count
    above [MAX_RETRIES], a negative count, the 0 of a malformed
    marker): [n] applications of [increment_retry] succeed and give a
    supported file of the same folder and base stem whose retry count is
    the first count plus [n]. *)
Theorem retry_chain_advances (path : Path) (n : nat) :
  is_image_file path = true ->
  exists q,
    retry_chain n path = Return q
    /\ get_retry_count q = get_retry_count path + Z.of_nat n
    /\ base_name q = base_name path
    /\ dirs q = dirs path
    /\ is_image_file q = true.
Proof.
  intros Himg. induction n as [|n (q & Hq & Hc & Hb & Hd & Hi)].
  - exists path. split_and!; try done. lia.
  - cbn [retry_chain]. rewrite Hq.
    destruct (increment_retry_image q Hi) as (q' & Hq' & Hd' & _ & _ & Hi' & Hc' & Hb').
    exists q'. split_and!; try done; [lia|congruence|congruence].
Qed.

(** X13 at a name whose marker carries a negative count. *)
Lemma retry_chain_advances_witness :
  exists q,
    retry_chain 8 (WATCH_FOLDER // "a__retry-5.jpg") = Return q
    /\ get_retry_count q = get_retry_count (WATCH_FOLDER // "a__retry-5.jpg") + Z.of_nat 8
    /\ base_name q = base_name (WATCH_FOLDER // "a__retry-5.jpg")
    /\ dirs q = dirs (WATCH_FOLDER // "a__retry-5.jpg")
    /\ is_image_file q = true.
Proof.
  apply (retry_chain_advances (WATCH_FOLDER // "a__retry-5.jpg") 8). reflexivity.
Defined.

(** ** Failing again and again *)

Lemma image_reaches_lock (n : string) :
  is_image_file (WATCH_FOLDER // n) = true ->
  reaches_lock extraction_fails (created n) = true.
Proof.
  intros Himg. unfold reaches_lock. cbn [created is_directory src_path negb andb].
  rewrite Himg. by vm_compute.
Qed.

Lemma single_file_stuck (n data : string) (w : World) :
  files w = {[ WATCH_FOLDER // n := data ]} ->
  reaches_lock extraction_fails (created n) = true ->
  MAX_RETRIES <= get_retry_count (WATCH_FOLDER // n) ->
  files (handled extraction_fails n w) = files w.
Proof.
  intros Hw Hreach Hge. unfold handled.
  assert (reaches_extraction extraction_fails (created n) w = true) as Hext.
  { unfold reaches_extraction. rewrite Hreach. cbn [andb].
    apply bool_decide_eq_true. rewrite Hw. apply lookup_singleton_ne.
    intros E. symmetry in E. by apply lock_path_differs in E. }
  pose proof Hext as (_ & _ & _ & _ & Hfree)%reaches_extraction_inv.
  rewrite on_created_extracting by done. cbn [env_run extraction_fails].
  rewrite process_file_stuck by done. cbn [fst snd files].
  by rewrite delete_insert_id.
Qed.

Lemma redrop_absent (n data : string) (w : World) :
  files w = {[ WATCH_FOLDER // n := data ]} -> redrop n w = w.
Proof.
  intros Hw. unfold redrop. rewrite Hw.
  rewrite lookup_singleton_ne; [done|]. intros E. by injection E.
Qed.

(** X14.  Retries are bounded.  Let a supported label be the only file,
    let its extraction fail at every event, and let the operator drop
    it back into the watched folder each time the watcher has moved it
    to the retry folder.  After [k] such rounds the label is still the
    only file, with its content and base stem, and its retry count is
    the first count [c] plus [k], but never beyond [MAX_RETRIES]; a
    label whose first count is already [MAX_RETRIES] or more is never
    renamed. *)
Theorem retries_are_bounded (n data : string) (w : World) (k : nat) :
  files w = {[ WATCH_FOLDER // n := data ]} ->
  is_image_file (WATCH_FOLDER // n) = true ->
  let c := get_retry_count (WATCH_FOLDER // n) in
  let label := WATCH_FOLDER // fst (fail_repeatedly k n w) in
  files (snd (fail_repeatedly k n w)) = {[ label := data ]}
  /\ is_image_file label = true
  /\ base_name label = base_name (WATCH_FOLDER // n)
  /\ get_retry_count label
     = if MAX_RETRIES <=? c then c else Z.min (c + Z.of_nat k) MAX_RETRIES.
Proof.
  intros Hw Himg c. induction k as [|k IH]; cbn zeta in *.
  - cbn [fail_repeatedly fst snd]. split_and!; try done. fold c.
    destruct (Z.leb_spec MAX_RETRIES c); lia.
  - cbn [fail_repeatedly]. destruct (fail_repeatedly k n w) as [n' w'].
    cbn [fst snd] in *. destruct IH as (Hw' & Himg' & Hb' & Hc').
    pose proof (image_reaches_lock n' Himg') as Hreach.
    unfold name_after_failure.
    destruct (Z.ltb_spec (get_retry_count (WATCH_FOLDER // n')) MAX_RETRIES) as [Hlt|Hge].
    + destruct (increment_retry_image _ Himg') as (q & Hq & Hd & _ & _ & Hi & Hcq & Hbq).
      assert (q = WATCH_FOLDER // name q) as Eq
        by (destruct q as [dq nq]; cbn [dirs name] in *; by subst dq).
      rewrite Hq. rewrite Eq in Hq, Hi, Hcq, Hbq.
      split_and!.
      * apply redrop_single. by apply single_file_failure.
      * done.
      * congruence.
      * rewrite Hcq, Hc'. clear -Hlt Hc'.
        destruct (Z.leb_spec MAX_RETRIES c); lia.
    + assert (files (handled extraction_fails n' w') = {[ WATCH_FOLDER // n' := data ]})
        as Hh by (by rewrite (single_file_stuck n' data)).
      rewrite (redrop_absent n' data) by done.
      split_and!; try done.
      rewrite Hc'. clear -Hge Hc'.
      destruct (Z.leb_spec MAX_RETRIES c); lia.
Qed.

(** X14 at [x.jpg] after ten failures: three renames, no more. *)
Lemma retries_are_bounded_witness :
  get_retry_count
    (WATCH_FOLDER // fst (fail_repeatedly 10 "x.jpg" (one_label "x.jpg"))) = 3.
Proof.
  destruct (retries_are_bounded "x.jpg" "image bytes" (one_label "x.jpg") 10
              eq_refl eq_refl) as (_ & _ & _ & Hc).
  exact Hc.
Defined.
